(** * Trusted-dealer FROST key generation with a Taproot tweak

    A shallow embedding of [python/trusted_dealer.py]: Feldman VSS over the
    secp256k1 scalar field, the BIP341 tweak of the shares, share
    verification, and Lagrange reconstruction of the tweaked group key.

    Python integers are [Z]; scalars are integers modulo the group order
    ([Zmod SIZE] of the standard library); exceptions are values of [exn]
    carried by [result]; the draws of [secrets.randbits] are read from an
    explicit tape. *)

From Stdlib Require Import String Ascii ZArith Lia Bool List Permutation.
From Stdlib.Strings Require Import Byte.
From Stdlib Require Import Znumtheory Zmod Field DecimalString.
Import ListNotations.
Local Open Scope Z_scope.

(** ** Exceptions and results *)

(** The exceptions the module can raise.  Every [raise] of the source is a
    [ValueError] with a message; [assert] raises [AssertionError]; indexing
    an empty list raises [IndexError]. *)
Inductive exn : Type :=
| ValueError (msg : string)
| AssertionError
| IndexError.

Inductive result (A : Type) : Type :=
| Ok (a : A)
| Raise (e : exn).

Arguments Ok {A} a.
Arguments Raise {A} e.

Definition bind {A B : Type} (r : result A) (k : A -> result B) : result B :=
  match r with
  | Ok a => k a
  | Raise e => Raise e
  end.

Notation "x <- c ;; k" := (bind c (fun x => k))
  (at level 61, c at next level, right associativity).
Notation "' pat <- c ;; k" := (bind c (fun x => match x with pat => k end))
  (at level 61, pat pattern, c at next level, right associativity).

(** The error kinds of the specification, as classes of the messages the
    source raises. *)
Definition InvalidParameters (e : exn) : Prop :=
  e = ValueError "n must be >= 1" \/
  e = ValueError "t must satisfy 1 <= t <= n".

Definition InvalidCommitment (e : exn) : Prop :=
  e = ValueError "Invalid polynomial: A_0 is infinity" \/
  e = ValueError "Invalid commitment: A_0 is infinity".

Definition InvalidGroupKey (e : exn) : Prop :=
  e = ValueError "Tweaked group public key is infinity".

Definition decimal (i : Z) : string := NilEmpty.string_of_int (Z.to_int i).

Definition zero_share_message (i : Z) : string :=
  ("Secret share for id=" ++ decimal i ++ " is 0; aborting.")%string.

Definition ZeroShare (e : exn) : Prop :=
  exists i, e = ValueError (zero_share_message i).

Definition InconsistentInput (e : exn) : Prop :=
  e = ValueError "target_id must be in ids" \/
  e = ValueError "duplicate ids not allowed" \/
  e = ValueError "ids and pubshares length mismatch" \/
  e = ValueError "need at least one share" \/
  e = ValueError "Interpolation yielded infinity".

Definition ZeroDivisor (e : exn) : Prop :=
  e = ValueError "Cannot invert zero scalar".

(** ** Scalars *)

(** Modelled from the spec: the constant [Scalar.SIZE] of the vendored curve
    library (vendor/secp256k1lab), the order n of the secp256k1 group. *)
Definition SIZE : Z :=
  0xFFFFFFFFFFFFFFFFFFFFFFFFFFFFFFFEBAAEDCE6AF48A03BBFD25E8CD0364141.

(** Modelled from the spec: the class [Scalar] of the vendored curve library,
    an element of the field modulo the curve order n with add, sub, mul and
    equality. *)
Abbreviation Scalar := (Zmod SIZE).

(** Modelled from the spec: the constructor [Scalar(a)] of the vendored curve
    library applied to a Python integer, which reduces modulo n. *)
Definition Scalar_of_int (a : Z) : Scalar := Zmod.of_Z SIZE a.

(** Modelled from the spec: [int(s)] for a [Scalar] of the vendored curve
    library, its representative in [0, n-1]. *)
Definition int_of_Scalar (s : Scalar) : Z := Zmod.to_Z s.

(** Modelled from the spec: [Scalar.from_int_wrapping] of the vendored curve
    library, the wrapping construction that reduces mod n. *)
Definition from_int_wrapping (v : Z) : Scalar := Scalar_of_int (v mod SIZE).

Definition int_from_bytes_big (b : list byte) : Z :=
  fold_left (fun acc x => acc * 256 + Z.of_N (Byte.to_N x)) b 0.

(** Modelled from the spec: [Scalar.from_bytes_wrapping] of the vendored curve
    library, the big-endian decoding followed by the wrapping construction. *)
Definition from_bytes_wrapping (b : list byte) : Scalar :=
  from_int_wrapping (int_from_bytes_big b).

(** Python's [pow(a, -1, m)] for [m > 0]: the inverse of [a] modulo [m], or a
    [ValueError] when [a] is not invertible. *)
Definition pow_minus_one (a m : Z) : result Z :=
  if Z.gcd a m =? 1 then Ok (Z.invmod a m)
  else Raise (ValueError "base is not invertible for the given modulus").

(** ** The curve library *)

(** Modelled from the spec: the group elements [GE], the generator [G] and
    [tagged_hash] of the vendored curve library (vendor/secp256k1lab): a type
    of points with equality, identity, addition and scalar multiplication,
    the parity test and x-only encoding of a non-identity point, and the
    tagged hash.  The laws are those of a module over the scalars. *)
Class CurveLib : Type := {
  GE : Type;
  GE_eqb : GE -> GE -> bool;
  GE_infinity : GE;
  GE_add : GE -> GE -> GE;
  GE_mul : Scalar -> GE -> GE;
  G : GE;
  even_y : GE -> bool;
  xonly : GE -> list byte;
  tagged_hash : string -> list byte -> list byte;
  GE_eqb_eq : forall P Q, GE_eqb P Q = true <-> P = Q;
  GE_add_comm : forall P Q, GE_add P Q = GE_add Q P;
  GE_add_assoc : forall P Q R, GE_add P (GE_add Q R) = GE_add (GE_add P Q) R;
  GE_add_0_l : forall P, GE_add GE_infinity P = P;
  GE_mul_0_l : forall P, GE_mul Zmod.zero P = GE_infinity;
  GE_mul_1_l : forall P, GE_mul Zmod.one P = P;
  GE_mul_mul : forall a b P, GE_mul a (GE_mul b P) = GE_mul (Zmod.mul a b) P;
  GE_mul_add_l : forall a b P,
    GE_mul (Zmod.add a b) P = GE_add (GE_mul a P) (GE_mul b P);
  GE_mul_add_r : forall a P Q,
    GE_mul a (GE_add P Q) = GE_add (GE_mul a P) (GE_mul a Q)
}.

Section Dealer.

Context {lib : CurveLib}.

(** [P.infinity] *)
Definition is_infinity (P : GE) : bool := GE_eqb P GE_infinity.

(** [a * P] for a Python integer [a]: [GE.__rmul__] makes it a scalar. *)
Definition int_mul (a : Z) (P : GE) : GE := GE_mul (Scalar_of_int a) P.

(** Modelled from the spec: [GE.to_bytes_xonly] of the vendored curve
    library, the 32-byte x-only encoding, which exists for non-identity
    points only (ComputeTweak "fails if P is the identity point"). *)
Definition to_bytes_xonly (P : GE) : result (list byte) :=
  if is_infinity P then Raise AssertionError else Ok (xonly P).

(** Modelled from the spec: [GE.has_even_y] of the vendored curve library,
    the even-Y parity predicate of a non-identity point. *)
Definition has_even_y (P : GE) : result bool :=
  if is_infinity P then Raise AssertionError else Ok (even_y P).

(** ** Randomness *)

(** The successive values returned by [secrets.randbits(256)]. *)
Definition tape : Type := list Z.

(** [None] when the tape ends before a nonzero scalar is drawn. *)
Fixpoint _random_scalar_nonzero (tp : tape) : option (Scalar * tape) :=
  match tp with
  | [] => None
  | r :: tp' =>
      let s := from_int_wrapping r in
      if negb (Zmod.eqb s Zmod.zero) then Some (s, tp')
      else _random_scalar_nonzero tp'
  end.

Definition _random_scalar (tp : tape) : option (Scalar * tape) :=
  match tp with
  | [] => None
  | r :: tp' => Some (from_int_wrapping r, tp')
  end.

(** ** Polynomial evaluation *)

Definition eval_point_poly (commitments : list GE) (x : Scalar) : GE :=
  fst (fold_left
         (fun '(result, power) A =>
            (GE_add result (int_mul (int_of_Scalar power) A),
             Zmod.mul power x))
         commitments (GE_infinity, Scalar_of_int 1)).

Definition eval_scalar_poly (coeffs : list Scalar) (x : Scalar) : Scalar :=
  fst (fold_left
         (fun '(result, power) c =>
            (Zmod.add result (Zmod.mul c power), Zmod.mul power x))
         coeffs (Scalar_of_int 0, Scalar_of_int 1)).

(** ** Taproot tweak *)

Definition _taproot_tweak_and_sign (P : GE) : result (Scalar * Z) :=
  xb <- to_bytes_xonly P ;;
  let tweak_bytes := tagged_hash "TapTweak" (xb ++ repeat x00 32) in
  let tweak := from_bytes_wrapping tweak_bytes in
  ev <- has_even_y P ;;
  let g := if ev then 1 else -1 in
  Ok (tweak, g).

(** ** Modular inverse *)

Definition modinv_scalar (x : Scalar) : result Scalar :=
  if Zmod.eqb x Zmod.zero then Raise (ValueError "Cannot invert zero scalar")
  else
    y <- pow_minus_one (int_of_Scalar x) SIZE ;;
    Ok (Scalar_of_int y).

(** ** Key generation *)

(** [range(lo, hi)] *)
Definition range (lo hi : Z) : list Z :=
  map (fun k => lo + Z.of_nat k) (seq 0 (Z.to_nat (hi - lo))).

(** The loop [for _ in range(1, t): coeffs.append(_random_scalar())], with
    [k] iterations left. *)
Fixpoint append_random (k : nat) (coeffs : list Scalar) (tp : tape)
  : option (list Scalar * tape) :=
  match k with
  | O => Some (coeffs, tp)
  | S k' =>
      match _random_scalar tp with
      | None => None
      | Some (a, tp') => append_random k' (coeffs ++ [a]) tp'
      end
  end.

(** The loop [for i in range(1, n + 1)] of the dealer, over the ids that are
    left. *)
Fixpoint share_loop (coeffs : list Scalar) (vss_commitment : list GE)
    (tweak : Scalar) (g : Z) (ids : list Z)
    (secret_shares : list Scalar) (public_shares : list GE)
  : result (list Scalar * list GE) :=
  match ids with
  | [] => Ok (secret_shares, public_shares)
  | i :: ids' =>
      let idx := Scalar_of_int i in
      let E := eval_point_poly vss_commitment idx in
      let f_id := eval_scalar_poly coeffs idx in
      let d_i := Zmod.add (Zmod.mul (Scalar_of_int g) f_id) tweak in
      if Zmod.eqb d_i Zmod.zero then Raise (ValueError (zero_share_message i))
      else
        let P_i_Q := GE_add (int_mul g E) (GE_mul tweak G) in
        if negb (GE_eqb P_i_Q (GE_mul d_i G)) then Raise AssertionError
        else share_loop coeffs vss_commitment tweak g ids'
               (secret_shares ++ [d_i]) (public_shares ++ [P_i_Q])
  end.

(** The dealer once the coefficients are sampled. *)
Definition deal (coeffs : list Scalar) (n : Z)
  : result (list GE * list Scalar * list GE) :=
  let vss_commitment := map (fun a => GE_mul a G) coeffs in
  match vss_commitment with
  | [] => Raise IndexError
  | P :: _ =>
      if is_infinity P
      then Raise (ValueError "Invalid polynomial: A_0 is infinity")
      else
        '(tweak, g) <- _taproot_tweak_and_sign P ;;
        let Q := GE_add (int_mul g P) (GE_mul tweak G) in
        if is_infinity Q
        then Raise (ValueError "Tweaked group public key is infinity")
        else
          '(secret_shares, public_shares) <-
            share_loop coeffs vss_commitment tweak g (range 1 (n + 1)) [] [] ;;
          Ok (vss_commitment, secret_shares, public_shares)
  end.

(** [None] when the tape ends before the coefficients are sampled. *)
Definition trusted_dealer_key_generation (t n : Z) (tp : tape)
  : option (result (list GE * list Scalar * list GE)) :=
  if n <? 1 then Some (Raise (ValueError "n must be >= 1"))
  else if negb ((1 <=? t) && (t <=? n))
  then Some (Raise (ValueError "t must satisfy 1 <= t <= n"))
  else
    match _random_scalar_nonzero tp with
    | None => None
    | Some (a_0, tp1) =>
        match append_random (length (range 1 t)) [a_0] tp1 with
        | None => None
        | Some (coeffs, _) => Some (deal coeffs n)
        end
    end.

(** ** Share verification *)

Definition verify_share (participant_id : Z) (sec_share : Scalar)
    (vss_commitment : list GE) : result bool :=
  if Zmod.eqb sec_share Zmod.zero then Ok false
  else if participant_id <=? 0 then Ok false
  else
    match vss_commitment with
    | [] => Ok false
    | P :: _ =>
        if is_infinity P then Ok false
        else
          '(tweak, g) <- _taproot_tweak_and_sign P ;;
          let idx := Scalar_of_int participant_id in
          let E := eval_point_poly vss_commitment idx in
          let expected_pub := GE_add (int_mul g E) (GE_mul tweak G) in
          Ok (GE_eqb expected_pub (GE_mul sec_share G))
    end.

(** ** Group key from the commitments *)

Definition group_pubkey_from_commitment (vss_commitment : list GE)
  : result GE :=
  match vss_commitment with
  | [] => Raise (ValueError "Empty commitments")
  | P :: _ =>
      if is_infinity P
      then Raise (ValueError "Invalid commitment: A_0 is infinity")
      else
        '(tweak, g) <- _taproot_tweak_and_sign P ;;
        let Q := GE_add (int_mul g P) (GE_mul tweak G) in
        if is_infinity Q
        then Raise (ValueError "Tweaked group public key is infinity")
        else Ok Q
  end.

(** ** Lagrange interpolation *)

(** [len(set(ids))] *)
Definition len_set (ids : list Z) : nat := length (nodup Z.eq_dec ids).

Definition lagrange_at_zero (ids : list Z) (target_id : Z) : result Scalar :=
  if negb (existsb (Z.eqb target_id) ids)
  then Raise (ValueError "target_id must be in ids")
  else if negb (Nat.eqb (len_set ids) (length ids))
  then Raise (ValueError "duplicate ids not allowed")
  else
    let x := Scalar_of_int target_id in
    let '(num, denom) :=
      fold_left
        (fun '(num, denom) j =>
           if j =? target_id then (num, denom)
           else
             let j_s := Scalar_of_int j in
             (Zmod.mul num j_s, Zmod.mul denom (Zmod.sub j_s x)))
        ids (Scalar_of_int 1, Scalar_of_int 1) in
    denom_inv <- modinv_scalar denom ;;
    Ok (Zmod.mul num denom_inv).

(** The loop [for id_i, P_i in zip(ids, pubshares)] over the pairs that are
    left. *)
Fixpoint interpolation_loop (ids : list Z) (pairs : list (Z * GE)) (Q : GE)
  : result GE :=
  match pairs with
  | [] => Ok Q
  | (id_i, P_i) :: pairs' =>
      lam_i <- lagrange_at_zero ids id_i ;;
      interpolation_loop ids pairs'
        (GE_add Q (int_mul (int_of_Scalar lam_i) P_i))
  end.

Definition group_pub_from_tweaked_pubshares (ids : list Z)
    (pubshares : list GE) : result GE :=
  if negb (Nat.eqb (length ids) (length pubshares))
  then Raise (ValueError "ids and pubshares length mismatch")
  else if Nat.eqb (length ids) 0
  then Raise (ValueError "need at least one share")
  else if negb (Nat.eqb (len_set ids) (length ids))
  then Raise (ValueError "duplicate ids not allowed")
  else
    Q <- interpolation_loop ids (combine ids pubshares) GE_infinity ;;
    if is_infinity Q
    then Raise (ValueError "Interpolation yielded infinity")
    else Ok Q.

End Dealer.

(** ** Notions used in the statements *)

Section Notions.

Local Open Scope Zmod_scope.

(** *** Sums, products and polynomials over the scalars *)

Fixpoint ssum (l : list Scalar) : Scalar :=
  match l with
  | [] => 0
  | x :: l' => x + ssum l'
  end.

Fixpoint sprod (l : list Scalar) : Scalar :=
  match l with
  | [] => 1
  | x :: l' => x * sprod l'
  end.

(** A polynomial given by its coefficients, constant term first. *)
Fixpoint horner (f : list Scalar) (x : Scalar) : Scalar :=
  match f with
  | [] => 0
  | c :: f' => c + x * horner f' x
  end.

(** The quotient of [f] by [X - a]. *)
Fixpoint quotient (f : list Scalar) (a : Scalar) : list Scalar :=
  match f with
  | [] => []
  | _ :: f' =>
      match f' with
      | [] => []
      | _ :: _ => horner f' a :: quotient f' a
      end
  end.

(** The product of [p] by [y - X]. *)
Fixpoint mul_linear (y : Scalar) (p : list Scalar) : list Scalar :=
  match p with
  | [] => []
  | c :: p' =>
      y * c :: match mul_linear y p' with
               | [] => [- c]
               | d :: r => (d - c) :: r
               end
  end.

(** The polynomial whose value at [z] is the product of the [y - z]. *)
Definition vanishing (ys : list Scalar) : list Scalar :=
  fold_right mul_linear [1] ys.

(** The elements of [xs] other than [x]. *)
Definition others (x : Scalar) (xs : list Scalar) : list Scalar :=
  filter (fun y => negb (Zmod.eqb y x)) xs.

(** The Lagrange coefficient at zero of the node [x] among [xs]. *)
Definition lam (xs : list Scalar) (x : Scalar) : Scalar :=
  sprod (others x xs) * Zmod.inv (sprod (map (fun y => y - x) (others x xs))).

(** *** The Lagrange coefficient as the code accumulates it *)

(** The numerator and the denominator that the loop of [lagrange_at_zero]
    accumulates. *)
Definition other_ids (ids : list Z) (target_id : Z) : list Z :=
  filter (fun j => negb (j =? target_id)%Z) ids.

Definition lagrange_num (ids : list Z) (target_id : Z) : Scalar :=
  sprod (map Scalar_of_int (other_ids ids target_id)).

Definition lagrange_denom (ids : list Z) (target_id : Z) : Scalar :=
  sprod (map (fun j => Scalar_of_int j - Scalar_of_int target_id)
             (other_ids ids target_id)).

(** The coefficient that [lagrange_at_zero] returns: the product of the
    j / (j - target_id). *)
Definition lagrange_coefficient (ids : list Z) (target_id : Z) : Scalar :=
  Zmod.mdiv (lagrange_num ids target_id) (lagrange_denom ids target_id).

(** Two different ids that are the same scalar. *)
Definition congruent_ids (ids : list Z) : Prop :=
  exists i j, In i ids /\ In j ids /\ j <> i
              /\ (j mod SIZE = i mod SIZE)%Z.

(** The tweaked shares of participant [i], as the loop of the dealer
    computes them. *)
Definition tweaked_secret_share (coeffs : list Scalar) (tweak : Scalar)
    (g i : Z) : Scalar :=
  Zmod.add (Zmod.mul (Scalar_of_int g)
                     (eval_scalar_poly coeffs (Scalar_of_int i))) tweak.

Context {lib : CurveLib}.

(** *** Sums and polynomials over the points *)

Fixpoint gsum (l : list GE) : GE :=
  match l with
  | [] => GE_infinity
  | P :: l' => GE_add P (gsum l')
  end.

(** A point polynomial given by its coefficients, constant term first. *)
Fixpoint point_horner (E : list GE) (x : Scalar) : GE :=
  match E with
  | [] => GE_infinity
  | A :: E' => GE_add A (GE_mul x (point_horner E' x))
  end.

(** The commitments of the tweaked polynomial [g f(X) + tweak]. *)
Definition tweaked_commitments (s tweak : Scalar) (E : list GE) : list GE :=
  match E with
  | [] => []
  | A :: E' => GE_add (GE_mul s A) (GE_mul tweak G) :: map (GE_mul s) E'
  end.

Definition tweaked_public_share (vss_commitment : list GE) (tweak : Scalar)
    (g i : Z) : GE :=
  GE_add (int_mul g (eval_point_poly vss_commitment (Scalar_of_int i)))
         (GE_mul tweak G).

(** The tweaked group key Q = g A_0 + tweak G that belongs to the internal
    key [A_0]. *)
Definition tweaked_key (A_0 : GE) : GE :=
  GE_add (int_mul (if even_y A_0 then 1%Z else (-1)%Z) A_0)
         (GE_mul (from_bytes_wrapping
                    (tagged_hash "TapTweak" (xonly A_0 ++ repeat x00 32))) G).

(** What a successful run of the dealer establishes. *)
Record dealt (coeffs : list Scalar) (n : Z) (vss_commitment : list GE)
    (secret_shares : list Scalar) (public_shares : list GE)
    (A_0 : GE) (tweak : Scalar) (g : Z) : Prop := {
  dealt_commitment : vss_commitment = map (fun a => GE_mul a G) coeffs;
  dealt_head : hd_error vss_commitment = Some A_0;
  dealt_A_0 : A_0 <> GE_infinity;
  dealt_tweak : _taproot_tweak_and_sign A_0 = Ok (tweak, g);
  dealt_Q : GE_add (int_mul g A_0) (GE_mul tweak G) <> GE_infinity;
  dealt_secret :
    secret_shares = map (tweaked_secret_share coeffs tweak g) (range 1 (n + 1));
  dealt_public :
    public_shares
    = map (tweaked_public_share vss_commitment tweak g) (range 1 (n + 1));
  dealt_checked :
    Forall (fun i =>
              tweaked_secret_share coeffs tweak g i <> 0
              /\ tweaked_public_share vss_commitment tweak g i
                 = GE_mul (tweaked_secret_share coeffs tweak g i) G)
           (range 1 (n + 1))
}.

(** The sum of the lam_i P_i that the loop of
    [group_pub_from_tweaked_pubshares] accumulates. *)
Definition interpolated_sum (ids : list Z) (pubshares : list GE) : GE :=
  gsum (map (fun p => GE_mul (lagrange_coefficient ids (fst p)) (snd p))
            (combine ids pubshares)).

End Notions.

(** ** A curve library to run the code on

    The cyclic group of order [SIZE] presented by discrete logarithms: the
    point [k * G] is the scalar [k], the generator is 1 and the identity
    is 0.  Parity and the x-only encoding read the logarithm; the tagged
    hash keeps the first 32 bytes of its message. *)

Module DlogModel.

Definition byte_of_int (z : Z) : byte :=
  match Byte.of_N (Z.to_N z) with
  | Some b => b
  | None => x00
  end.

Fixpoint int_to_bytes_big (len : nat) (z : Z) : list byte :=
  match len with
  | O => []
  | S k => int_to_bytes_big k (z / 256) ++ [byte_of_int (z mod 256)]
  end.

Definition lib : CurveLib :=
  {| GE := Scalar;
     GE_eqb := Zmod.eqb;
     GE_infinity := Zmod.zero;
     GE_add := Zmod.add;
     GE_mul := Zmod.mul;
     G := Zmod.one;
     even_y := fun P => Z.even (Zmod.to_Z P);
     xonly := fun P => int_to_bytes_big 32 (Zmod.to_Z P);
     tagged_hash := fun _ msg => firstn 32 msg;
     GE_eqb_eq := @Zmod.eqb_eq SIZE;
     GE_add_comm := @Zmod.add_comm SIZE;
     GE_add_assoc := @Zmod.add_assoc SIZE;
     GE_add_0_l := @Zmod.add_0_l SIZE;
     GE_mul_0_l := @Zmod.mul_0_l SIZE;
     GE_mul_1_l := @Zmod.mul_1_l SIZE;
     GE_mul_mul := @Zmod.mul_assoc SIZE;
     GE_mul_add_l := @Zmod.mul_add_l SIZE;
     GE_mul_add_r := @Zmod.mul_add_r SIZE |}.

(** The results of the dealer's run with t = 2, n = 3 and the draws 4
    and 5. *)
Definition run_commitment : list (@GE lib) := map Scalar_of_int [4; 5].

Definition run_secret_shares : list Scalar := map Scalar_of_int [13; 18; 23].

Definition run_public_shares : list (@GE lib) :=
  map Scalar_of_int [13; 18; 23].

End DlogModel.

(** ** Primality checks

    Trial division settles small primes.  A larger prime [N] is certified by
    Pocklington's criterion from prime factors [p] of [N - 1]: a base [a]
    with a^(N-1) = 1 modulo N whose power a^((N-1)/p) minus 1 is coprime
    to N. *)

(** No divisor of [n] from [d] on, up to the square root; [fuel] bounds the
    search. *)
Fixpoint no_divisor_from (fuel : nat) (d n : Z) : bool :=
  match fuel with
  | O => false
  | S k => if n <? d * d then true
           else if n mod d =? 0 then false
           else no_divisor_from k (d + 1) n
  end.

Definition prime_by_trial (n : Z) : bool :=
  (1 <? n) && no_divisor_from (S (Z.to_nat (Z.sqrt n))) 2 n.

(** Pocklington's condition on [N] for the base [a] and a factor [p] of
    [N - 1]. *)
Definition pock_cond (N a p : Z) : Prop :=
  (N - 1) mod p = 0
  /\ a ^ (N - 1) mod N = 1
  /\ Z.gcd (a ^ ((N - 1) / p) mod N - 1) N = 1.

(** The condition for one factor, by modular exponentiation. *)
Definition pock_check (N a p : Z) : bool :=
  let x := Zmod.of_Z N a in
  ((N - 1) mod p =? 0)
  && (Zmod.to_Z (Zmod.pow x (N - 1)) =? 1)
  && (Z.gcd (Zmod.to_Z (Zmod.pow x ((N - 1) / p)) - 1) N =? 1).

(** The condition for two factors at once: the power for the cofactor of
    [p1 * p2] is shared. *)
Definition pock_check2 (N a p1 p2 : Z) : bool :=
  let y := Zmod.pow (Zmod.of_Z N a) ((N - 1) / (p1 * p2)) in
  let z1 := Zmod.pow y p2 in
  let z2 := Zmod.pow y p1 in
  ((N - 1) mod (p1 * p2) =? 0)
  && (Zmod.to_Z (Zmod.pow z1 p1) =? 1)
  && (Z.gcd (Zmod.to_Z z1 - 1) N =? 1)
  && (Z.gcd (Zmod.to_Z z2 - 1) N =? 1).

(** ** Primality of the group order

    The scalars form a field because the group order is prime.  Each prime
    below is certified from prime factors of its predecessor whose product
    exceeds its square root. *)

Module Primality.

Lemma no_divisor_from_sound fuel : forall d n,
  1 < d -> (forall k, 1 < k < d -> ~ (k | n)) ->
  no_divisor_from fuel d n = true ->
  forall k, 1 < k < n -> ~ (k | n).
Proof.
  induction fuel as [|fuel IH]; intros d n Hd Hlow; simpl; [discriminate|].
  destruct (Z.ltb_spec n (d * d)) as [Hsq|Hsq].
  - intros _ k Hk [j Hj].
    assert (Hjpos : 1 < j < n) by nia.
    destruct (Z_lt_le_dec k d) as [Hkd|Hkd].
    + apply (Hlow k); [lia|]. exists j; exact Hj.
    + destruct (Z_lt_le_dec j d) as [Hjd|Hjd].
      * apply (Hlow j); [lia|]. exists k; lia.
      * nia.
  - destruct (Z.eqb_spec (n mod d) 0) as [Hz|Hnz]; [discriminate|].
    apply IH; [lia|].
    intros k Hk Hdiv.
    destruct (Z.eq_dec k d) as [->|Hne].
    + apply Hnz. apply Z.mod_divide in Hdiv; [exact Hdiv|lia].
    + apply (Hlow k); [lia|exact Hdiv].
Qed.

Lemma prime_by_trial_sound n : prime_by_trial n = true -> Z.prime n.
Proof.
  unfold prime_by_trial. intros [H1 H2]%andb_true_iff.
  apply Z.ltb_lt in H1. split; [exact H1|].
  refine (no_divisor_from_sound _ 2 n _ _ H2); [lia|].
  intros k Hk; lia.
Qed.

Lemma exists_prime_divisor n : 1 < n -> exists r, Z.prime r /\ (r | n).
Proof.
  intros Hn. assert (H0 : 0 <= n) by lia. revert Hn.
  pattern n. apply Zlt_0_ind; [|exact H0].
  clear n H0. intros n IH _ Hn.
  destruct (prime_dec n) as [Hp|Hnp].
  - exists n. split; [apply prime_alt; exact Hp|apply Z.divide_refl].
  - destruct (not_prime_divide n Hn Hnp) as (d & Hd & Hdn).
    destruct (IH d ltac:(lia) ltac:(lia)) as (r & Hr & Hrd).
    exists r. split; [exact Hr|]. eapply Z.divide_trans; eauto.
Qed.

Lemma unsigned_pow_of_Z N a e :
  1 < N -> 0 <= e -> Zmod.to_Z (Zmod.pow (Zmod.of_Z N a) e) = a ^ e mod N.
Proof.
  intros HN He.
  rewrite Zmod.unsigned_pow_nonneg_r, Zmod.unsigned_of_Z by lia.
  apply Z.mod_pow_l.
Qed.

Lemma pock_check_cond N a p :
  1 < N -> 1 < p -> pock_check N a p = true -> pock_cond N a p.
Proof.
  intros HN Hp Hc. unfold pock_check in Hc.
  apply andb_true_iff in Hc as [Hc Hg]. apply andb_true_iff in Hc as [Hd Ha].
  apply Z.eqb_eq in Hd, Ha, Hg.
  assert (He0 : 0 <= (N - 1) / p) by (apply Z.div_pos; lia).
  rewrite unsigned_pow_of_Z in Ha by lia.
  rewrite unsigned_pow_of_Z in Hg by lia.
  repeat split; assumption.
Qed.

Lemma pock_check2_cond N a p1 p2 :
  1 < N -> 1 < p1 -> 1 < p2 -> pock_check2 N a p1 p2 = true ->
  pock_cond N a p1 /\ pock_cond N a p2.
Proof.
  intros HN Hp1 Hp2 Hc. unfold pock_check2 in Hc. cbv zeta in Hc.
  apply andb_true_iff in Hc as [Hc Hg2]. apply andb_true_iff in Hc as [Hc Hg1].
  apply andb_true_iff in Hc as [Hd Ha].
  apply Z.eqb_eq in Hd, Ha, Hg1, Hg2.
  set (e := (N - 1) / (p1 * p2)) in *.
  assert (He : N - 1 = e * (p1 * p2)).
  { unfold e. rewrite Z.mul_comm. apply Z_div_exact_full_2; [nia|exact Hd]. }
  assert (He0 : 0 <= e) by (unfold e; apply Z.div_pos; nia).
  rewrite <- !Zmod.pow_mul_r_nonneg in Ha by nia.
  rewrite <- !Zmod.pow_mul_r_nonneg in Hg1 by nia.
  rewrite <- !Zmod.pow_mul_r_nonneg in Hg2 by nia.
  rewrite unsigned_pow_of_Z in Ha by nia.
  rewrite unsigned_pow_of_Z in Hg1 by nia.
  rewrite unsigned_pow_of_Z in Hg2 by nia.
  assert (E1 : (N - 1) / p1 = e * p2).
  { rewrite He. replace (e * (p1 * p2)) with (e * p2 * p1) by ring.
    apply Z.div_mul. lia. }
  assert (E2 : (N - 1) / p2 = e * p1).
  { rewrite He. replace (e * (p1 * p2)) with (e * p1 * p2) by ring.
    apply Z.div_mul. lia. }
  assert (EN : e * (p2 * p1) = N - 1) by (rewrite He; ring).
  unfold pock_cond. rewrite E1, E2. rewrite EN in Ha.
  repeat split; try assumption.
  - apply Z.mod_divide; [lia|]. exists (e * p2). lia.
  - apply Z.mod_divide; [lia|]. exists (e * p1). lia.
Qed.

Lemma pock_divisor N a p r :
  1 < N -> Z.prime p -> Z.prime r -> (r | N) ->
  pock_cond N a p -> (p | r - 1).
Proof.
  intros HN Hp Hr HrN (Hd & Ha & Hg).
  pose proof (Z.prime_ge_2 _ Hp) as Hp2. pose proof (Z.prime_ge_2 _ Hr) as Hr2.
  set (e := (N - 1) / p) in *.
  assert (He : N - 1 = e * p).
  { unfold e. rewrite Z.mul_comm. apply Z_div_exact_full_2; [lia|exact Hd]. }
  assert (He0 : 0 <= e) by (unfold e; apply Z.div_pos; lia).
  set (b := Zmod.pow (Zmod.of_Z r a) e).
  assert (Hbp : Zmod.pow b p = Zmod.one).
  { unfold b. rewrite <- Zmod.pow_mul_r_nonneg by lia. rewrite <- He.
    apply Zmod.unsigned_inj.
    rewrite unsigned_pow_of_Z by lia.
    rewrite <- (Z.mod_mod_divide _ N r HrN), Ha.
    rewrite Zmod.unsigned_1_pos by lia. apply Z.mod_small; lia. }
  assert (Hb1 : b <> Zmod.one).
  { intros Hb. apply (f_equal Zmod.to_Z) in Hb. unfold b in Hb.
    rewrite unsigned_pow_of_Z in Hb by lia.
    rewrite Zmod.unsigned_1_pos in Hb by lia.
    assert (Hdiv : (r | a ^ e mod N - 1)).
    { apply Z.mod_divide; [lia|].
      rewrite Zminus_mod, (Z.mod_mod_divide _ N r HrN), Hb.
      rewrite (Z.mod_small 1 r) by lia. reflexivity. }
    assert (Hr1 : (r | 1)).
    { rewrite <- Hg. apply Z.gcd_greatest; assumption. }
    apply Z.divide_1_r_nonneg in Hr1; lia. }
  assert (Hb0 : b <> Zmod.zero).
  { intros Hb. rewrite Hb, Zmod.pow_0_l in Hbp by lia.
    symmetry in Hbp. revert Hbp. apply Zmod.one_neq_zero. lia. }
  destruct (Z.BoolSpec_divide p (r - 1)) as [Hdiv|Hnd]; [exact Hdiv|exfalso].
  apply (Z.coprime_prime_l _ _ Hp) in Hnd.
  apply Z.Bezout_coprime in Hnd. destruct Hnd as (u & v & Huv).
  assert (Hcop : Z.gcd (Zmod.to_Z b) r = 1).
  { symmetry. rewrite Z.gcd_comm. symmetry. apply Z.coprime_prime_small; [exact Hr|].
    pose proof (Zmod.unsigned_pos_bound b ltac:(lia)).
    pose proof (Zmod.unsigned_nz b Hb0). lia. }
  apply Hb1.
  rewrite <- (Zmod.pow_1_r b), <- Huv.
  rewrite Zmod.pow_add_r_coprime by exact Hcop.
  rewrite (Z.mul_comm u p), (Z.mul_comm v (r - 1)).
  rewrite !Zmod.pow_mul_r_coprime by exact Hcop.
  rewrite Hbp. replace (r - 1) with (Z.pred r) by lia.
  rewrite Zmod.fermat_nz by assumption.
  rewrite !Zmod.pow_1_l. apply Zmod.mul_1_l.
Qed.

Lemma pocklington N F :
  1 < N -> 0 < F -> N < (F + 1) * (F + 1) ->
  (forall r, Z.prime r -> (r | N) -> (F | r - 1)) ->
  Z.prime N.
Proof.
  intros HN HF Hsq Hall. split; [exact HN|].
  intros n Hn [k Hk].
  assert (Hk1 : 1 < k < N) by nia.
  assert (Hsmall : exists d, 1 < d /\ (d | N) /\ d * d <= N).
  { destruct (Z_le_gt_dec n k).
    - exists n. repeat split; [lia|exists k; exact Hk|nia].
    - exists k. repeat split; [lia|exists n; lia|nia]. }
  destruct Hsmall as (d & Hd1 & HdN & Hdd).
  destruct (exists_prime_divisor d Hd1) as (r & Hr & Hrd).
  pose proof (Z.prime_ge_2 _ Hr) as Hr2.
  assert (HrN : (r | N)) by (eapply Z.divide_trans; eauto).
  assert (Hrd' : r <= d) by (apply Z.divide_pos_le; [lia|exact Hrd]).
  pose proof (Hall r Hr HrN) as HFr.
  apply Z.divide_pos_le in HFr; [|lia].
  nia.
Qed.

Lemma pocklington1 N a p :
  1 < N -> Z.prime p -> pock_check N a p = true ->
  N < (p + 1) * (p + 1) -> Z.prime N.
Proof.
  intros HN Hp Hc Hsq. pose proof (Z.prime_ge_2 _ Hp).
  apply (pocklington N p); [lia|lia|exact Hsq|].
  intros r Hr HrN. apply (pock_divisor N a p r HN Hp Hr HrN).
  apply pock_check_cond; [lia|lia|exact Hc].
Qed.

Lemma pocklington2 N a p1 p2 :
  1 < N -> Z.prime p1 -> Z.prime p2 -> p1 <> p2 ->
  pock_check2 N a p1 p2 = true ->
  N < (p1 * p2 + 1) * (p1 * p2 + 1) -> Z.prime N.
Proof.
  intros HN Hp1 Hp2 Hne Hc Hsq.
  pose proof (Z.prime_ge_2 _ Hp1). pose proof (Z.prime_ge_2 _ Hp2).
  destruct (pock_check2_cond N a p1 p2 HN ltac:(lia) ltac:(lia) Hc) as [Hc1 Hc2].
  apply (pocklington N (p1 * p2)); [lia|nia|exact Hsq|].
  intros r Hr HrN.
  destruct (pock_divisor N a p1 r HN Hp1 Hr HrN Hc1) as [k Hk].
  pose proof (pock_divisor N a p2 r HN Hp2 Hr HrN Hc2) as Hd2.
  rewrite Hk in Hd2. rewrite Z.mul_comm in Hd2.
  apply Z.gauss in Hd2.
  - destruct Hd2 as [j Hj]. exists j. rewrite Hk, Hj. ring.
  - apply Z.coprime_prime_l; [exact Hp2|].
    intros Hdiv. apply Hne. symmetry.
    apply Z.divide_prime_prime; assumption.
Qed.

Lemma prime_120233 : Z.prime 120233.
Proof. apply prime_by_trial_sound. vm_compute. reflexivity. Qed.

Lemma prime_1871 : Z.prime 1871.
Proof. apply prime_by_trial_sound. vm_compute. reflexivity. Qed.

Lemma prime_9349 : Z.prime 9349.
Proof. apply prime_by_trial_sound. vm_compute. reflexivity. Qed.

Lemma prime_28181 : Z.prime 28181.
Proof. apply prime_by_trial_sound. vm_compute. reflexivity. Qed.

Lemma prime_44706919 : Z.prime 44706919.
Proof.
  apply (pocklington1 _ 2 9349);
    [lia|exact prime_9349|vm_compute; reflexivity|lia].
Qed.

Lemma prime_545358713 : Z.prime 545358713.
Proof.
  apply (pocklington1 _ 2 28181);
    [lia|exact prime_28181|vm_compute; reflexivity|lia].
Qed.

Lemma prime_1627771 : Z.prime 1627771.
Proof.
  apply (pocklington1 _ 2 1871);
    [lia|exact prime_1871|vm_compute; reflexivity|lia].
Qed.

Lemma prime_297159362677 : Z.prime 297159362677.
Proof.
  apply (pocklington1 _ 2 1627771);
    [lia|exact prime_1627771|vm_compute; reflexivity|lia].
Qed.

Lemma prime_174723607534414371449 : Z.prime 174723607534414371449.
Proof.
  apply (pocklington2 _ 2 120233 44706919);
    [lia|exact prime_120233|exact prime_44706919|lia
    |vm_compute; reflexivity|lia].
Qed.

Lemma prime_29047611873442575647497758179 :
  Z.prime 29047611873442575647497758179.
Proof.
  apply (pocklington2 _ 2 545358713 297159362677);
    [lia|exact prime_545358713|exact prime_297159362677|lia
    |vm_compute; reflexivity|lia].
Qed.

Lemma prime_341948486974166000522343609283189 :
  Z.prime 341948486974166000522343609283189.
Proof.
  apply (pocklington1 _ 2 29047611873442575647497758179);
    [lia|exact prime_29047611873442575647497758179|vm_compute; reflexivity|lia].
Qed.

Lemma prime_secp256k1_order :
  Z.prime 0xFFFFFFFFFFFFFFFFFFFFFFFFFFFFFFFEBAAEDCE6AF48A03BBFD25E8CD0364141.
Proof.
  apply (pocklington2 _ 2 174723607534414371449 341948486974166000522343609283189);
    [lia|exact prime_174723607534414371449|exact prime_341948486974166000522343609283189|lia
    |vm_compute; reflexivity|lia].
Qed.

End Primality.

(** ** The scalar field *)

Lemma SIZE_prime : Z.prime SIZE.
Proof. exact Primality.prime_secp256k1_order. Qed.

Lemma SIZE_ge_2 : 2 <= SIZE.
Proof. apply Z.prime_ge_2, SIZE_prime. Qed.

Add Field ScalarField : (Zmod.field_theory SIZE SIZE_prime).

(** ** Lagrange interpolation at zero over the scalar field *)

Section Interpolation.

Local Open Scope Zmod_scope.

Lemma ssum_ext (F F' : Scalar -> Scalar) xs :
  (forall x, In x xs -> F x = F' x) ->
  ssum (map F xs) = ssum (map F' xs).
Proof.
  induction xs as [|x xs IH]; intros H; cbn [map ssum]; [reflexivity|].
  rewrite (H x (or_introl eq_refl)), IH; [reflexivity|].
  intros y Hy. apply H. right. exact Hy.
Qed.

Lemma ssum_linear (u v : Scalar -> Scalar) (c k : Scalar) xs :
  ssum (map (fun x => u x * c + k * v x) xs)
  = c * ssum (map u xs) + k * ssum (map v xs).
Proof.
  induction xs as [|x xs IH]; cbn [map ssum]; [ring|]. rewrite IH. ring.
Qed.

Lemma ssum_zero (xs : list Scalar) : ssum (map (fun _ => 0) xs) = 0.
Proof.
  induction xs as [|x xs IH]; cbn [map ssum]; [reflexivity|]. rewrite IH. ring.
Qed.

Lemma scalar_integral (a b : Scalar) : a * b = 0 -> a = 0 \/ b = 0.
Proof. apply (Zmod.mul_0_iff_prime SIZE_prime). Qed.

Lemma sprod_nonzero l : (forall y, In y l -> y <> 0) -> sprod l <> 0.
Proof.
  induction l as [|y l IH]; intros H; cbn [sprod].
  - apply Zmod.one_neq_zero. pose proof SIZE_ge_2. lia.
  - intros Hz. apply scalar_integral in Hz. destruct Hz as [Hy|Hl].
    + exact (H y (or_introl eq_refl) Hy).
    + apply IH; [|exact Hl]. intros z Hz. apply H. right. exact Hz.
Qed.

Lemma sub_nonzero (y x : Scalar) : y <> x -> y - x <> 0.
Proof.
  intros Hne Hz. apply Hne.
  transitivity (y - x + x); [ring|]. rewrite Hz. ring.
Qed.

Lemma differences_nonzero x xs :
  ~ In x xs -> sprod (map (fun y => y - x) xs) <> 0.
Proof.
  intros Hx. apply sprod_nonzero. intros d Hd.
  apply in_map_iff in Hd. destruct Hd as (y & <- & Hy).
  apply sub_nonzero. intros ->. exact (Hx Hy).
Qed.

Lemma sprod_has_zero l : In 0 l -> sprod l = 0.
Proof.
  induction l as [|y l IH]; cbn [sprod In]; [contradiction|].
  intros [->|H]; [ring|]. rewrite (IH H). ring.
Qed.

Lemma others_not_in x xs : ~ In x xs -> others x xs = xs.
Proof.
  induction xs as [|y xs IH]; intros H; cbn [others filter]; [reflexivity|].
  destruct (Zmod.eqb_spec y x) as [->|Hne]; cbn [negb].
  - exfalso. apply H. left. reflexivity.
  - fold (others x xs). rewrite IH; [reflexivity|].
    intros Hin. apply H. right. exact Hin.
Qed.

Lemma others_cons_same x xs : others x (x :: xs) = others x xs.
Proof.
  unfold others. cbn [filter].
  destruct (Zmod.eqb_spec x x) as [_|Hne]; [reflexivity|congruence].
Qed.

Lemma others_cons_other x y xs :
  y <> x -> others x (y :: xs) = y :: others x xs.
Proof.
  intros Hne. unfold others. cbn [filter].
  destruct (Zmod.eqb_spec y x) as [->|_]; [congruence|reflexivity].
Qed.

Lemma not_in_others x xs : ~ In x (others x xs).
Proof.
  unfold others. intros H. apply filter_In in H. destruct H as [_ H].
  destruct (Zmod.eqb_spec x x); [discriminate|congruence].
Qed.

Lemma lam_head a xs :
  ~ In a xs ->
  lam (a :: xs) a = sprod xs * Zmod.inv (sprod (map (fun y => y - a) xs)).
Proof.
  intros Ha. unfold lam. rewrite others_cons_same, others_not_in by exact Ha.
  reflexivity.
Qed.

Lemma lam_tail a xs x :
  a <> x -> lam (a :: xs) x = lam xs x * a * Zmod.inv (a - x).
Proof.
  intros Hne. unfold lam. rewrite others_cons_other by exact Hne.
  cbn [map sprod].
  pose proof (differences_nonzero x (others x xs) (not_in_others x xs)) as HD.
  pose proof (sub_nonzero a x Hne) as Hax.
  field. split; assumption.
Qed.

Lemma horner_quotient f a z :
  horner f z = horner f a + (z - a) * horner (quotient f a) z.
Proof.
  induction f as [|c f IH]; [cbn [horner quotient]; ring|].
  destruct f as [|c' f']; [cbn [horner quotient]; ring|].
  change (quotient (c :: c' :: f') a)
    with (horner (c' :: f') a :: quotient (c' :: f') a).
  cbn [horner] in *. rewrite IH. ring.
Qed.

Lemma length_quotient f a : length (quotient f a) = pred (length f).
Proof.
  induction f as [|c f IH]; [reflexivity|].
  destruct f as [|c' f']; [reflexivity|].
  change (length (quotient (c :: c' :: f') a))
    with (S (length (quotient (c' :: f') a))).
  rewrite IH. reflexivity.
Qed.

Lemma horner_mul_linear y p z :
  horner (mul_linear y p) z = (y - z) * horner p z.
Proof.
  induction p as [|c p IH]; cbn [mul_linear horner]; [ring|].
  destruct (mul_linear y p) as [|d r]; cbn [horner] in *.
  - transitivity (y * c + z * ((y - z) * horner p z - c)); [|ring].
    rewrite <- IH. ring.
  - transitivity (y * c + z * ((y - z) * horner p z - c)); [|ring].
    rewrite <- IH. ring.
Qed.

Lemma length_mul_linear y p :
  p <> [] -> length (mul_linear y p) = S (length p).
Proof.
  induction p as [|c p IH]; intros H; [congruence|].
  destruct p as [|c' p']; [reflexivity|].
  specialize (IH ltac:(discriminate)).
  change (mul_linear y (c :: c' :: p'))
    with (y * c :: match mul_linear y (c' :: p') with
                   | [] => [- c]
                   | d :: r => (d - c) :: r
                   end).
  destruct (mul_linear y (c' :: p')) as [|d r]; [discriminate IH|].
  cbn [length] in *. rewrite IH. reflexivity.
Qed.

Lemma horner_vanishing ys z :
  horner (vanishing ys) z = sprod (map (fun y => y - z) ys).
Proof.
  induction ys as [|y ys IH]; cbn [vanishing fold_right horner map sprod]; [ring|].
  fold (vanishing ys). rewrite horner_mul_linear, IH. reflexivity.
Qed.

Lemma length_vanishing ys : length (vanishing ys) = S (length ys).
Proof.
  induction ys as [|y ys IH]; [reflexivity|].
  cbn [vanishing fold_right]. fold (vanishing ys).
  rewrite length_mul_linear, IH; [reflexivity|].
  intros E. rewrite E in IH. discriminate.
Qed.

Lemma sprod_sub_zero ys : sprod (map (fun y => y - 0) ys) = sprod ys.
Proof.
  induction ys as [|y ys IH]; cbn [map sprod]; [reflexivity|]. rewrite IH. ring.
Qed.

Lemma lam_tail_times a xs x :
  a <> x -> lam (a :: xs) x * (x - a) = - a * lam xs x.
Proof.
  intros Hne. rewrite lam_tail by exact Hne.
  pose proof (sub_nonzero a x Hne). field. assumption.
Qed.

Lemma vanishing_at_node xs x : In x xs -> horner (vanishing xs) x = 0.
Proof.
  intros Hx. rewrite horner_vanishing. apply sprod_has_zero.
  apply in_map_iff. exists x. split; [ring|exact Hx].
Qed.

(** Peeling the node [a] off: the defect of the interpolation formula on
    [a :: xs] is the value at [a] times the defect of the sum of the
    coefficients. *)
Lemma interpolation_step a xs :
  (forall h, (length h <= length xs)%nat ->
     ssum (map (fun x => lam xs x * horner h x) xs) = horner h 0) ->
  NoDup (a :: xs) ->
  forall f, (length f <= S (length xs))%nat ->
    ssum (map (fun x => lam (a :: xs) x * horner f x) (a :: xs)) - horner f 0
    = horner f a * (ssum (map (lam (a :: xs)) (a :: xs)) - 1).
Proof.
  intros IH ND f Hf. inversion ND as [|a' xs' Ha ND']; subst.
  cbn [map ssum].
  assert (Hh : (length (quotient f a) <= length xs)%nat)
    by (rewrite length_quotient; lia).
  rewrite (ssum_ext
             (fun x => lam (a :: xs) x * horner f x)
             (fun x => lam (a :: xs) x * horner f a
                       + (- a) * (lam xs x * horner (quotient f a) x))).
  - rewrite ssum_linear, (IH _ Hh).
    rewrite (horner_quotient f a 0). ring.
  - intros x Hx.
    assert (Hne : a <> x) by (intros ->; exact (Ha Hx)).
    rewrite (horner_quotient f a x).
    transitivity (lam (a :: xs) x * horner f a
                  + lam (a :: xs) x * (x - a) * horner (quotient f a) x);
      [ring|].
    rewrite lam_tail_times by exact Hne. ring.
Qed.

(** Lagrange interpolation at zero: the coefficients [lam xs x] recover the
    constant term of every polynomial with at most [length xs]
    coefficients from its values at the distinct nodes [xs]. *)
Theorem lagrange_interpolation xs :
  NoDup xs ->
  forall f, (length f <= length xs)%nat ->
    ssum (map (fun x => lam xs x * horner f x) xs) = horner f 0.
Proof.
  induction xs as [|a xs IH]; intros ND f Hf.
  - destruct f; [reflexivity|cbn [length] in Hf; lia].
  - pose proof ND as ND0. inversion ND as [|a' xs' Ha ND']; subst.
    specialize (IH ND').
    pose proof (differences_nonzero a xs Ha) as HD.
    assert (Hone : ssum (map (lam (a :: xs)) (a :: xs)) - 1 = 0).
    { pose proof (interpolation_step a xs IH ND0 (vanishing xs)
                    ltac:(rewrite length_vanishing; lia)) as E.
      cbn [map ssum] in E.
      rewrite (ssum_ext
                 (fun x => lam (a :: xs) x * horner (vanishing xs) x)
                 (fun _ => 0)) in E.
      2:{ intros x Hx. rewrite (vanishing_at_node xs x Hx). ring. }
      rewrite ssum_zero, lam_head in E by exact Ha.
      rewrite !horner_vanishing, sprod_sub_zero in E.
      assert (E0 : sprod (map (fun y => y - a) xs)
                   * (lam (a :: xs) a + ssum (map (lam (a :: xs)) xs) - 1) = 0).
      { rewrite lam_head by exact Ha. rewrite <- E. field. exact HD. }
      apply scalar_integral in E0. destruct E0 as [E0|E0]; [contradiction|].
      cbn [map ssum]. exact E0. }
    pose proof (interpolation_step a xs IH ND0 f Hf) as E.
    rewrite Hone in E.
    transitivity (ssum (map (fun x => lam (a :: xs) x * horner f x) (a :: xs))
                  - horner f 0 + horner f 0); [ring|].
    rewrite E. ring.
Qed.

End Interpolation.

(** ** The scalar code *)

Section ScalarCode.

Local Open Scope Zmod_scope.

Lemma Scalar_of_int_of_Scalar (s : Scalar) : Scalar_of_int (int_of_Scalar s) = s.
Proof. apply Zmod.of_Z_to_Z. Qed.

Lemma Scalar_of_int_inj (i j : Z) :
  (0 <= i < SIZE)%Z -> (0 <= j < SIZE)%Z ->
  Scalar_of_int i = Scalar_of_int j -> i = j.
Proof.
  intros Hi Hj E. apply Zmod.of_Z_inj in E.
  rewrite !Z.mod_small in E by assumption. exact E.
Qed.

Lemma Scalar_of_int_eq_iff (i j : Z) :
  Scalar_of_int i = Scalar_of_int j <-> (i mod SIZE = j mod SIZE)%Z.
Proof. apply Zmod.of_Z_inj. Qed.

Lemma eval_scalar_poly_loop coeffs x r p :
  fst (fold_left
         (fun '(result, power) c =>
            (Zmod.add result (Zmod.mul c power), Zmod.mul power x))
         coeffs (r, p))
  = r + p * horner coeffs x.
Proof.
  revert r p. induction coeffs as [|c coeffs IH]; intros r p;
    cbn [fold_left horner fst]; [ring|].
  rewrite IH. ring.
Qed.

Lemma eval_scalar_poly_horner coeffs x :
  eval_scalar_poly coeffs x = horner coeffs x.
Proof.
  unfold eval_scalar_poly. rewrite eval_scalar_poly_loop.
  change (Scalar_of_int 0) with (@Zmod.zero SIZE).
  change (Scalar_of_int 1) with (@Zmod.one SIZE). ring.
Qed.

(** [modinv_scalar] raises on zero and nowhere else. *)
Lemma modinv_scalar_zero : 
  modinv_scalar 0 = Raise (ValueError "Cannot invert zero scalar").
Proof. reflexivity. Qed.

Lemma modinv_scalar_nonzero (x : Scalar) :
  x <> 0 -> modinv_scalar x = Ok (Zmod.inv x).
Proof.
  intros Hx. unfold modinv_scalar.
  destruct (Zmod.eqb_spec x 0) as [E|_]; [contradiction|].
  unfold pow_minus_one, int_of_Scalar.
  pose proof (Zmod.unsigned_pos_bound x ltac:(pose proof SIZE_ge_2; lia)) as Hr.
  pose proof (Zmod.unsigned_nz x Hx) as Hnz.
  assert (Hg : Z.gcd (Zmod.to_Z x) SIZE = 1%Z).
  { rewrite Z.gcd_comm. apply Z.coprime_prime_small; [exact SIZE_prime|lia]. }
  rewrite Hg. cbn [Z.eqb Pos.eqb bind]. f_equal.
  apply Zmod.unsigned_inj. unfold Scalar_of_int.
  rewrite Zmod.unsigned_of_Z, Zmod.unsigned_inv. apply Z.mod_invmod.
Qed.

Lemma mul_inv_scalar (x : Scalar) : x <> 0 -> x * Zmod.inv x = 1.
Proof. intros Hx. field. exact Hx. Qed.

Lemma lagrange_loop ids target_id num denom :
  fold_left
    (fun '(num, denom) j =>
       if (j =? target_id)%Z then (num, denom)
       else
         let j_s := Scalar_of_int j in
         (Zmod.mul num j_s,
          Zmod.mul denom (Zmod.sub j_s (Scalar_of_int target_id))))
    ids (num, denom)
  = (num * lagrange_num ids target_id, denom * lagrange_denom ids target_id).
Proof.
  unfold lagrange_num, lagrange_denom, other_ids.
  revert num denom. induction ids as [|j ids IH]; intros num denom;
    cbn [fold_left filter map sprod].
  - f_equal; ring.
  - destruct (Z.eqb_spec j target_id) as [->|Hne]; cbn [negb].
    + apply IH.
    + cbv zeta. rewrite IH. cbn [map sprod]. f_equal; ring.
Qed.

Lemma existsb_eqb_In (ids : list Z) (target_id : Z) :
  existsb (Z.eqb target_id) ids = true <-> In target_id ids.
Proof.
  rewrite existsb_exists. split.
  - intros (j & Hj & E). apply Z.eqb_eq in E. subst. exact Hj.
  - intros H. exists target_id. split; [exact H|apply Z.eqb_refl].
Qed.

Lemma len_set_NoDup (ids : list Z) :
  Nat.eqb (len_set ids) (length ids) = true <-> NoDup ids.
Proof.
  unfold len_set. rewrite Nat.eqb_eq. split.
  - intros E. induction ids as [|j ids IH]; [constructor|].
    cbn [nodup length] in E. destruct (in_dec Z.eq_dec j ids) as [Hin|Hnin].
    + assert (L : (length (nodup Z.eq_dec ids) <= length ids)%nat).
      { apply NoDup_incl_length; [apply NoDup_nodup|].
        intros z Hz. exact (proj1 (nodup_In Z.eq_dec ids z) Hz). }
      lia.
    + cbn [length] in E. constructor; [exact Hnin|apply IH; lia].
  - intros ND. rewrite nodup_fixed_point by exact ND. reflexivity.
Qed.

Lemma lagrange_at_zero_not_in ids target_id :
  ~ In target_id ids ->
  lagrange_at_zero ids target_id = Raise (ValueError "target_id must be in ids").
Proof.
  intros H. unfold lagrange_at_zero.
  destruct (existsb (Z.eqb target_id) ids) eqn:E; [|reflexivity].
  apply existsb_eqb_In in E. contradiction.
Qed.

Lemma lagrange_at_zero_duplicates ids target_id :
  In target_id ids -> ~ NoDup ids ->
  lagrange_at_zero ids target_id = Raise (ValueError "duplicate ids not allowed").
Proof.
  intros Hin H. unfold lagrange_at_zero.
  apply existsb_eqb_In in Hin. rewrite Hin. cbn [negb].
  destruct (Nat.eqb (len_set ids) (length ids)) eqn:E; [|reflexivity].
  apply len_set_NoDup in E. contradiction.
Qed.

Lemma lagrange_at_zero_body ids target_id :
  In target_id ids -> NoDup ids ->
  lagrange_at_zero ids target_id
  = (denom_inv <- modinv_scalar (lagrange_denom ids target_id) ;;
     Ok (lagrange_num ids target_id * denom_inv)).
Proof.
  intros Hin ND. unfold lagrange_at_zero.
  apply existsb_eqb_In in Hin. rewrite Hin.
  apply len_set_NoDup in ND. rewrite ND. cbn [negb].
  rewrite lagrange_loop.
  change (Scalar_of_int 1) with (@Zmod.one SIZE).
  rewrite !Zmod.mul_1_l. reflexivity.
Qed.

Lemma lagrange_denom_zero_iff ids target_id :
  lagrange_denom ids target_id = 0
  <-> exists j, In j ids /\ j <> target_id
                /\ (j mod SIZE = target_id mod SIZE)%Z.
Proof.
  unfold lagrange_denom, other_ids. split.
  - intros E.
    destruct (Exists_dec
                (fun j => Scalar_of_int j = Scalar_of_int target_id)
                (filter (fun j => negb (j =? target_id)%Z) ids)) as [Hex|Hno].
    { intros j.
      destruct (Zmod.eqb (Scalar_of_int j) (Scalar_of_int target_id)) eqn:B.
      - left. apply Zmod.eqb_eq. exact B.
      - right. intros H. apply Zmod.eqb_eq in H. congruence. }
    + apply Exists_exists in Hex. destruct Hex as (j & Hj & Ej).
      apply filter_In in Hj. destruct Hj as [Hj Hne].
      exists j. repeat split; [exact Hj| |apply Scalar_of_int_eq_iff; exact Ej].
      intros ->. rewrite Z.eqb_refl in Hne. discriminate.
    + exfalso. revert E. apply sprod_nonzero. intros d Hd.
      apply in_map_iff in Hd. destruct Hd as (j & <- & Hj).
      apply sub_nonzero. intros Ej. apply Hno.
      apply Exists_exists. exists j. split; assumption.
  - intros (j & Hj & Hne & E). apply sprod_has_zero.
    apply in_map_iff. exists j. split.
    + apply Scalar_of_int_eq_iff in E. rewrite E. ring.
    + apply filter_In. split; [exact Hj|].
      destruct (Z.eqb_spec j target_id); [contradiction|reflexivity].
Qed.

End ScalarCode.

(** ** Point polynomials and interpolation in the group *)

Section Points.

Context {lib : CurveLib}.

Local Open Scope Zmod_scope.

Lemma GE_add_0_r P : GE_add P GE_infinity = P.
Proof. rewrite GE_add_comm. apply GE_add_0_l. Qed.

Lemma GE_mul_infinity a : GE_mul a GE_infinity = GE_infinity.
Proof.
  rewrite <- (GE_mul_0_l G), GE_mul_mul. f_equal. ring.
Qed.

Lemma is_infinity_true_iff P : is_infinity P = true <-> P = GE_infinity.
Proof. apply GE_eqb_eq. Qed.

Lemma is_infinity_false_iff P : is_infinity P = false <-> P <> GE_infinity.
Proof.
  rewrite <- is_infinity_true_iff. destruct (is_infinity P); split; congruence.
Qed.

Lemma int_mul_int_of_Scalar s P : int_mul (int_of_Scalar s) P = GE_mul s P.
Proof. unfold int_mul. rewrite Scalar_of_int_of_Scalar. reflexivity. Qed.

Lemma eval_point_poly_loop commitments x R p :
  fst (fold_left
         (fun '(result, power) A =>
            (GE_add result (int_mul (int_of_Scalar power) A),
             Zmod.mul power x))
         commitments (R, p))
  = GE_add R (GE_mul p (point_horner commitments x)).
Proof.
  revert R p. induction commitments as [|A commitments IH]; intros R p;
    cbn [fold_left point_horner fst].
  - rewrite GE_mul_infinity, GE_add_0_r. reflexivity.
  - rewrite IH, int_mul_int_of_Scalar.
    rewrite GE_mul_add_r, GE_mul_mul, GE_add_assoc. reflexivity.
Qed.

Lemma eval_point_poly_horner commitments x :
  eval_point_poly commitments x = point_horner commitments x.
Proof.
  unfold eval_point_poly. rewrite eval_point_poly_loop.
  change (Scalar_of_int 1) with (@Zmod.one SIZE).
  rewrite GE_mul_1_l, GE_add_0_l. reflexivity.
Qed.

(** The commitments evaluate to the commitment of the value: E(x) = f(x) G. *)
Lemma point_horner_commitments coeffs x :
  point_horner (map (fun a => GE_mul a G) coeffs) x
  = GE_mul (horner coeffs x) G.
Proof.
  induction coeffs as [|c coeffs IH]; cbn [map point_horner horner].
  - rewrite GE_mul_0_l. reflexivity.
  - rewrite IH, GE_mul_mul, <- GE_mul_add_l. reflexivity.
Qed.

Lemma gsum_ext (F F' : Scalar -> GE) xs :
  (forall x, In x xs -> F x = F' x) ->
  gsum (map F xs) = gsum (map F' xs).
Proof.
  induction xs as [|x xs IH]; intros H; cbn [map gsum]; [reflexivity|].
  rewrite (H x (or_introl eq_refl)), IH; [reflexivity|].
  intros y Hy. apply H. right. exact Hy.
Qed.

Lemma gsum_split (u : Scalar -> Scalar) (A : GE) (F : Scalar -> GE) xs :
  gsum (map (fun x => GE_add (GE_mul (u x) A) (F x)) xs)
  = GE_add (GE_mul (ssum (map u xs)) A) (gsum (map F xs)).
Proof.
  induction xs as [|x xs IH]; cbn [map gsum ssum].
  - rewrite GE_mul_0_l, GE_add_0_l. reflexivity.
  - rewrite IH, GE_mul_add_l, !GE_add_assoc. f_equal.
    rewrite <- !GE_add_assoc. f_equal. apply GE_add_comm.
Qed.

Lemma gsum_infinity (xs : list Scalar) :
  gsum (map (fun _ => GE_infinity) xs) = GE_infinity.
Proof.
  induction xs as [|x xs IH]; cbn [map gsum]; [reflexivity|].
  rewrite IH. apply GE_add_0_l.
Qed.

(** Weights that act on scalar polynomials as [c] times the evaluation at
    zero act on point polynomials in the same way. *)
Lemma point_weights xs (E : list GE) :
  forall (w : Scalar -> Scalar) (c : Scalar),
    (forall f, (length f <= length E)%nat ->
       ssum (map (fun x => w x * horner f x) xs) = c * horner f 0) ->
    gsum (map (fun x => GE_mul (w x) (point_horner E x)) xs)
    = GE_mul c (hd GE_infinity E).
Proof.
  induction E as [|A E IH]; intros w c Hw; cbn [point_horner hd].
  - rewrite GE_mul_infinity.
    rewrite (gsum_ext _ (fun _ => GE_infinity))
      by (intros; apply GE_mul_infinity).
    apply gsum_infinity.
  - rewrite (gsum_ext _
               (fun x => GE_add (GE_mul (w x) A)
                           (GE_mul (w x * x) (point_horner E x)))).
    2:{ intros x _. rewrite GE_mul_add_r, GE_mul_mul. reflexivity. }
    rewrite gsum_split.
    rewrite (IH (fun x => w x * x) 0).
    + rewrite GE_mul_0_l, GE_add_0_r. f_equal.
      specialize (Hw [1] ltac:(cbn [length]; lia)).
      cbn [horner] in Hw.
      rewrite <- (ssum_ext (fun x => w x * (1 + x * 0)) w) by (intros; ring).
      rewrite Hw. ring.
    + intros f Hf.
      specialize (Hw (0 :: f) ltac:(cbn [length]; lia)).
      cbn [horner] in Hw.
      rewrite (ssum_ext _ (fun x => w x * (0 + x * horner f x)))
        by (intros; ring).
      rewrite Hw. ring.
Qed.

(** Interpolation of a point polynomial at zero. *)
Theorem point_interpolation xs (E : list GE) :
  NoDup xs -> (length E <= length xs)%nat ->
  gsum (map (fun x => GE_mul (lam xs x) (point_horner E x)) xs)
  = hd GE_infinity E.
Proof.
  intros ND HE.
  rewrite (point_weights xs E (lam xs) 1).
  - apply GE_mul_1_l.
  - intros f Hf. rewrite lagrange_interpolation by (trivial; lia). ring.
Qed.

Lemma point_horner_scaled s (E : list GE) x :
  point_horner (map (GE_mul s) E) x = GE_mul s (point_horner E x).
Proof.
  induction E as [|A E IH]; cbn [map point_horner].
  - rewrite GE_mul_infinity. reflexivity.
  - rewrite IH, GE_mul_add_r, !GE_mul_mul. do 2 f_equal. ring.
Qed.

Lemma point_horner_tweaked s tweak A (E : list GE) x :
  point_horner (tweaked_commitments s tweak (A :: E)) x
  = GE_add (GE_mul s (point_horner (A :: E) x)) (GE_mul tweak G).
Proof.
  cbn [tweaked_commitments point_horner].
  rewrite point_horner_scaled, GE_mul_add_r, !GE_mul_mul.
  rewrite <- !GE_add_assoc. f_equal.
  rewrite GE_add_comm. f_equal. f_equal. ring.
Qed.

Lemma length_tweaked_commitments s tweak (E : list GE) :
  length (tweaked_commitments s tweak E) = length E.
Proof. destruct E; cbn [tweaked_commitments length]; [|rewrite length_map]; reflexivity. Qed.

End Points.

(** ** The dealer's run *)

Section Runs.

Context {lib : CurveLib}.

Local Open Scope Zmod_scope.

Lemma length_range lo hi : length (range lo hi) = Z.to_nat (hi - lo).
Proof. unfold range. rewrite length_map, length_seq. reflexivity. Qed.

Lemma In_range lo hi i : In i (range lo hi) <-> (lo <= i < hi)%Z.
Proof.
  unfold range. rewrite in_map_iff. split.
  - intros (k & <- & Hk). apply in_seq in Hk. lia.
  - intros H. exists (Z.to_nat (i - lo)). split; [lia|].
    apply in_seq. lia.
Qed.

Lemma nth_error_range lo hi i :
  (lo <= i < hi)%Z -> nth_error (range lo hi) (Z.to_nat (i - lo)) = Some i.
Proof.
  intros H. unfold range.
  rewrite nth_error_map, nth_error_seq.
  destruct (Nat.ltb_spec (Z.to_nat (i - lo)) (Z.to_nat (hi - lo))) as [_|Hge];
    [|lia].
  cbn [option_map]. f_equal. lia.
Qed.

Lemma NoDup_range lo hi : NoDup (range lo hi).
Proof.
  unfold range. generalize (seq_NoDup (Z.to_nat (hi - lo)) 0).
  generalize (seq 0 (Z.to_nat (hi - lo))) as l.
  induction l as [|k l IH]; intros ND; cbn [map]; [constructor|].
  inversion ND as [|k' l' Hk ND']; subst. constructor; [|apply IH; exact ND'].
  intros Hin. apply in_map_iff in Hin. destruct Hin as (k2 & E & Hk2).
  assert (k2 = k) by lia. subst. contradiction.
Qed.

Lemma share_loop_ok coeffs vss_commitment tweak g ids :
  forall secret_shares public_shares ss ps,
    share_loop coeffs vss_commitment tweak g ids secret_shares public_shares
    = Ok (ss, ps) ->
    ss = secret_shares ++ map (tweaked_secret_share coeffs tweak g) ids
    /\ ps = public_shares
            ++ map (tweaked_public_share vss_commitment tweak g) ids
    /\ Forall (fun i =>
                 tweaked_secret_share coeffs tweak g i <> 0
                 /\ tweaked_public_share vss_commitment tweak g i
                    = GE_mul (tweaked_secret_share coeffs tweak g i) G) ids.
Proof.
  induction ids as [|i ids IH]; intros secret_shares public_shares ss ps;
    cbn [share_loop map].
  - intros [= <- <-]. rewrite !app_nil_r. repeat split. constructor.
  - cbv zeta.
    fold (tweaked_secret_share coeffs tweak g i).
    fold (tweaked_public_share vss_commitment tweak g i).
    destruct (Zmod.eqb_spec (tweaked_secret_share coeffs tweak g i) 0)
      as [|Hnz]; [discriminate|].
    destruct (GE_eqb (tweaked_public_share vss_commitment tweak g i)
                     (GE_mul (tweaked_secret_share coeffs tweak g i) G))
      eqn:Heq; cbn [negb]; [|discriminate].
    apply GE_eqb_eq in Heq.
    intros H. apply IH in H. destruct H as (-> & -> & HF).
    rewrite <- !app_assoc. cbn [app]. repeat split.
    constructor; [split; assumption|exact HF].
Qed.

Lemma share_loop_raises coeffs vss_commitment tweak g ids :
  forall secret_shares public_shares e,
    share_loop coeffs vss_commitment tweak g ids secret_shares public_shares
    = Raise e ->
    e = AssertionError \/ exists i, e = ValueError (zero_share_message i).
Proof.
  induction ids as [|i ids IH]; intros secret_shares public_shares e;
    cbn [share_loop]; [discriminate|].
  cbv zeta.
  destruct (Zmod.eqb _ 0).
  - intros [= <-]. right. exists i. reflexivity.
  - destruct (negb _).
    + intros [= <-]. left. reflexivity.
    + apply IH.
Qed.

Lemma tweak_and_sign_ok (P : GE) :
  P <> GE_infinity ->
  _taproot_tweak_and_sign P
  = Ok (from_bytes_wrapping (tagged_hash "TapTweak" (xonly P ++ repeat x00 32)),
        if even_y P then 1%Z else (-1)%Z).
Proof.
  intros H. apply is_infinity_false_iff in H.
  unfold _taproot_tweak_and_sign, to_bytes_xonly, has_even_y.
  rewrite H. reflexivity.
Qed.

Lemma tweak_and_sign_infinity :
  _taproot_tweak_and_sign GE_infinity = Raise AssertionError.
Proof.
  unfold _taproot_tweak_and_sign, to_bytes_xonly.
  rewrite (proj2 (is_infinity_true_iff GE_infinity) eq_refl). reflexivity.
Qed.

Lemma deal_ok coeffs n vss_commitment secret_shares public_shares :
  deal coeffs n = Ok (vss_commitment, secret_shares, public_shares) ->
  exists A_0 tweak g,
    dealt coeffs n vss_commitment secret_shares public_shares A_0 tweak g.
Proof.
  unfold deal.
  destruct (map (fun a => GE_mul a G) coeffs) as [|P rest] eqn:Hc;
    [discriminate|].
  destruct (is_infinity P) eqn:HP; [discriminate|].
  apply is_infinity_false_iff in HP.
  rewrite (tweak_and_sign_ok P HP). cbn [bind].
  set (tweak := from_bytes_wrapping _). set (g := if even_y P then _ else _).
  destruct (is_infinity (GE_add (int_mul g P) (GE_mul tweak G))) eqn:HQ;
    [discriminate|].
  apply is_infinity_false_iff in HQ.
  destruct (share_loop coeffs (P :: rest) tweak g (range 1 (n + 1)) [] [])
    as [[ss ps]|e] eqn:Hl; cbn [bind]; [|discriminate].
  intros [= <- <- <-]. rewrite <- Hc in *.
  apply share_loop_ok in Hl. destruct Hl as (-> & -> & HF).
  exists P, tweak, g. constructor;
    [reflexivity|rewrite Hc; reflexivity|exact HP
    |apply tweak_and_sign_ok; exact HP
    |exact HQ|reflexivity|reflexivity|exact HF].
Qed.

Lemma deal_raises coeffs n e :
  deal coeffs n = Raise e ->
  e = IndexError \/ e = AssertionError
  \/ e = ValueError "Invalid polynomial: A_0 is infinity"
  \/ e = ValueError "Tweaked group public key is infinity"
  \/ exists i, e = ValueError (zero_share_message i).
Proof.
  unfold deal.
  destruct (map (fun a => GE_mul a G) coeffs) as [|P rest];
    [intros [= <-]; auto|].
  destruct (is_infinity P) eqn:HP; [intros [= <-]; auto|].
  apply is_infinity_false_iff in HP.
  rewrite (tweak_and_sign_ok P HP). cbn [bind].
  destruct (is_infinity _); [intros [= <-]; auto 6|].
  destruct (share_loop _ _ _ _ _ _ _) as [[ss ps]|e'] eqn:Hl; cbn [bind];
    [discriminate|].
  intros [= <-]. apply share_loop_raises in Hl.
  destruct Hl as [->|Hi]; auto 6.
Qed.

Lemma append_random_length k :
  forall coeffs tp coeffs' tp',
    append_random k coeffs tp = Some (coeffs', tp') ->
    length coeffs' = (length coeffs + k)%nat.
Proof.
  induction k as [|k IH]; intros coeffs tp coeffs' tp'; cbn [append_random].
  - intros [= <- _]. lia.
  - destruct (_random_scalar tp) as [[a tp1]|]; [|discriminate].
    intros H. apply IH in H. rewrite H, length_app. cbn [length]. lia.
Qed.

Lemma keygen_ok t n tp r :
  trusted_dealer_key_generation t n tp = Some (Ok r) ->
  (1 <= t <= n)%Z
  /\ exists coeffs, length coeffs = Z.to_nat t /\ deal coeffs n = Ok r.
Proof.
  unfold trusted_dealer_key_generation.
  destruct (Z.ltb_spec n 1) as [|Hn]; [discriminate|].
  destruct (Z.leb_spec 1 t) as [Ht1|]; cbn [andb negb]; [|discriminate].
  destruct (Z.leb_spec t n) as [Htn|]; cbn [negb]; [|discriminate].
  destruct (_random_scalar_nonzero tp) as [[a_0 tp1]|]; [|discriminate].
  destruct (append_random _ _ _) as [[coeffs tp2]|] eqn:Ha; [|discriminate].
  intros [= H]. split; [lia|]. exists coeffs. split; [|exact H].
  apply append_random_length in Ha. rewrite Ha, length_range.
  cbn [length]. lia.
Qed.

Lemma keygen_dealt t n tp vss_commitment secret_shares public_shares :
  trusted_dealer_key_generation t n tp
  = Some (Ok (vss_commitment, secret_shares, public_shares)) ->
  (1 <= t <= n)%Z
  /\ exists coeffs A_0 tweak g,
       length coeffs = Z.to_nat t
       /\ dealt coeffs n vss_commitment secret_shares public_shares
                A_0 tweak g.
Proof.
  intros H. apply keygen_ok in H. destruct H as (Htn & coeffs & Hl & Hd).
  split; [exact Htn|]. apply deal_ok in Hd. destruct Hd as (A_0 & tweak & g & D).
  exists coeffs, A_0, tweak, g. split; assumption.
Qed.

(** Reading the share lists of a successful run at index [i - 1]. *)
Lemma dealt_nth coeffs n vss_commitment secret_shares public_shares
    A_0 tweak g i :
  dealt coeffs n vss_commitment secret_shares public_shares A_0 tweak g ->
  (1 <= i <= n)%Z ->
  nth_error secret_shares (Z.to_nat (i - 1))
  = Some (tweaked_secret_share coeffs tweak g i)
  /\ nth_error public_shares (Z.to_nat (i - 1))
     = Some (tweaked_public_share vss_commitment tweak g i)
  /\ tweaked_secret_share coeffs tweak g i <> 0
  /\ tweaked_public_share vss_commitment tweak g i
     = GE_mul (tweaked_secret_share coeffs tweak g i) G.
Proof.
  intros D Hi.
  assert (Hr : nth_error (range 1 (n + 1)) (Z.to_nat (i - 1)) = Some i)
    by (apply nth_error_range; lia).
  rewrite (dealt_secret _ _ _ _ _ _ _ _ D), (dealt_public _ _ _ _ _ _ _ _ D).
  rewrite !nth_error_map, Hr. cbn [option_map].
  pose proof (dealt_checked _ _ _ _ _ _ _ _ D) as HF.
  rewrite Forall_forall in HF.
  specialize (HF i (proj2 (In_range 1 (n + 1) i) ltac:(lia))).
  destruct HF as [H1 H2]. repeat split; assumption.
Qed.

End Runs.

(** ** The outcomes of a run with valid parameters *)

Section Outcomes.

Context {lib : CurveLib}.

Local Open Scope Zmod_scope.

(** The assertion of the dealer's loop holds for commitments of the
    coefficients: g E(i) + tweak G = (g f(i) + tweak) G. *)
Lemma dealer_assertion_holds coeffs tweak g i :
  tweaked_public_share (map (fun a => GE_mul a G) coeffs) tweak g i
  = GE_mul (tweaked_secret_share coeffs tweak g i) G.
Proof.
  unfold tweaked_public_share, tweaked_secret_share, int_mul.
  rewrite eval_point_poly_horner, point_horner_commitments.
  rewrite eval_scalar_poly_horner, GE_mul_mul, <- GE_mul_add_l.
  reflexivity.
Qed.

Lemma share_loop_outcome coeffs tweak g ids :
  forall secret_shares public_shares,
    (exists r,
       share_loop coeffs (map (fun a => GE_mul a G) coeffs) tweak g ids
         secret_shares public_shares = Ok r)
    \/ (exists i,
          share_loop coeffs (map (fun a => GE_mul a G) coeffs) tweak g ids
            secret_shares public_shares
          = Raise (ValueError (zero_share_message i))).
Proof.
  induction ids as [|i ids IH]; intros secret_shares public_shares;
    cbn [share_loop]; [left; eexists; reflexivity|].
  cbv zeta.
  fold (tweaked_secret_share coeffs tweak g i).
  fold (tweaked_public_share (map (fun a => GE_mul a G) coeffs) tweak g i).
  destruct (Zmod.eqb _ 0); [right; exists i; reflexivity|].
  rewrite (proj2 (GE_eqb_eq _ _) (dealer_assertion_holds coeffs tweak g i)).
  cbn [negb]. apply IH.
Qed.

(** With at least one coefficient the dealer returns, or fails with
    InvalidCommitment, InvalidGroupKey or ZeroShare: the internal assertion
    never fails. *)
Lemma deal_outcome coeffs n :
  coeffs <> [] ->
  (exists r, deal coeffs n = Ok r)
  \/ (exists e, deal coeffs n = Raise e
                /\ (InvalidCommitment e \/ InvalidGroupKey e \/ ZeroShare e)).
Proof.
  intros Hne. unfold deal.
  destruct (map (fun a => GE_mul a G) coeffs) as [|P rest] eqn:Hc.
  { destruct coeffs; [congruence|discriminate Hc]. }
  destruct (is_infinity P) eqn:HP.
  { right. eexists. split; [reflexivity|]. left. left. reflexivity. }
  apply is_infinity_false_iff in HP.
  rewrite (tweak_and_sign_ok _ HP). cbn [bind].
  destruct (is_infinity _).
  { right. eexists. split; [reflexivity|]. right. left. reflexivity. }
  rewrite <- Hc.
  match goal with
  | |- context [share_loop coeffs _ ?tw ?g ?ids [] []] =>
      destruct (share_loop_outcome coeffs tw g ids [] []) as [[[ss ps] E]|[i E]]
  end; rewrite E; cbn [bind].
  - left. eexists. reflexivity.
  - right. eexists. split; [reflexivity|]. right. right. exists i. reflexivity.
Qed.

Lemma append_random_nonempty k :
  forall coeffs tp coeffs' tp',
    coeffs <> [] -> append_random k coeffs tp = Some (coeffs', tp') ->
    coeffs' <> [].
Proof.
  induction k as [|k IH]; intros coeffs tp coeffs' tp' Hne;
    cbn [append_random].
  - intros [= <- _]. exact Hne.
  - destruct (_random_scalar tp) as [[a tp1]|]; [|discriminate].
    apply IH. destruct coeffs; discriminate.
Qed.

Lemma append_random_enough k :
  forall coeffs tp, (k <= length tp)%nat ->
    exists r, append_random k coeffs tp = Some r.
Proof.
  induction k as [|k IH]; intros coeffs tp Hk; cbn [append_random].
  - eexists. reflexivity.
  - destruct tp as [|r tp]; [cbn [length] in Hk; lia|].
    cbn [_random_scalar]. apply IH. cbn [length] in Hk. lia.
Qed.

(** A run with valid parameters that finds its draws on the tape returns
    or fails with InvalidCommitment, InvalidGroupKey or ZeroShare. *)
Lemma keygen_outcome t n tp r :
  (1 <= t <= n)%Z ->
  trusted_dealer_key_generation t n tp = Some r ->
  (exists x, r = Ok x)
  \/ (exists e, r = Raise e
                /\ (InvalidCommitment e \/ InvalidGroupKey e \/ ZeroShare e)).
Proof.
  intros Htn. unfold trusted_dealer_key_generation.
  destruct (Z.ltb_spec n 1) as [|_]; [lia|].
  destruct (Z.leb_spec 1 t) as [_|]; [|lia].
  destruct (Z.leb_spec t n) as [_|]; [|lia]. cbn [andb negb].
  destruct (_random_scalar_nonzero tp) as [[a_0 tp1]|]; [|discriminate].
  destruct (append_random _ _ _) as [[coeffs tp2]|] eqn:Ha; [|discriminate].
  intros [= <-].
  apply append_random_nonempty in Ha; [|discriminate].
  destruct (deal_outcome coeffs n Ha) as [[x E]|[e [E K]]]; rewrite E.
  - left. eexists. reflexivity.
  - right. exists e. split; [reflexivity|exact K].
Qed.

(** A tape whose first draw is nonzero modulo the group order and that
    holds t - 1 further draws is enough for the run. *)
Lemma keygen_enough_tape t n r_0 tp :
  (1 <= t <= n)%Z -> (r_0 mod SIZE <> 0)%Z ->
  (Z.to_nat (t - 1) <= length tp)%nat ->
  exists r, trusted_dealer_key_generation t n (r_0 :: tp) = Some r.
Proof.
  intros Htn Hr Hlen. unfold trusted_dealer_key_generation.
  destruct (Z.ltb_spec n 1) as [|_]; [lia|].
  destruct (Z.leb_spec 1 t) as [_|]; [|lia].
  destruct (Z.leb_spec t n) as [_|]; [|lia]. cbn [andb negb].
  cbn [_random_scalar_nonzero]. cbv zeta.
  destruct (Zmod.eqb_spec (from_int_wrapping r_0) 0) as [E|_]; cbn [negb].
  - exfalso. unfold from_int_wrapping, Scalar_of_int in E.
    apply (f_equal Zmod.to_Z) in E.
    rewrite Zmod.unsigned_of_Z, Zmod.unsigned_0, Z.mod_mod in E
      by (pose proof SIZE_ge_2; lia).
    contradiction.
  - destruct (append_random_enough (length (range 1 t))
                [from_int_wrapping r_0] tp) as [[coeffs tp2] E].
    { rewrite length_range. exact Hlen. }
    rewrite E. eexists. reflexivity.
Qed.

End Outcomes.

(** ** Key generation, verification and the group key *)

Section DealerClaims.

Context {lib : CurveLib}.

Local Open Scope Zmod_scope.

Lemma verify_share_dealt coeffs n vss_commitment secret_shares public_shares
    A_0 tweak g i :
  dealt coeffs n vss_commitment secret_shares public_shares A_0 tweak g ->
  (1 <= i <= n)%Z ->
  verify_share i (tweaked_secret_share coeffs tweak g i) vss_commitment
  = Ok true.
Proof.
  intros D Hi.
  destruct (dealt_nth _ _ _ _ _ _ _ _ i D Hi) as (_ & _ & Hnz & Heq).
  unfold verify_share.
  destruct (Zmod.eqb_spec (tweaked_secret_share coeffs tweak g i) 0)
    as [|_]; [contradiction|].
  destruct (Z.leb_spec i 0) as [|_]; [lia|].
  pose proof (dealt_head _ _ _ _ _ _ _ _ D) as Hh.
  destruct vss_commitment as [|P rest]; [discriminate|].
  injection Hh as ->.
  rewrite (proj2 (is_infinity_false_iff A_0) (dealt_A_0 _ _ _ _ _ _ _ _ D)).
  rewrite (dealt_tweak _ _ _ _ _ _ _ _ D). cbn [bind].
  f_equal. apply GE_eqb_eq. exact Heq.
Qed.

(** C1. With valid parameters 1 <= t <= n and its draws on the tape, a run of
    [trusted_dealer_key_generation t n] ends: it returns, or it aborts with
    InvalidCommitment, InvalidGroupKey or ZeroShare.  A run that returns
    has 1 <= t <= n and returns exactly n secret shares and n public
    shares; index i - 1 of both lists holds the share of participant i (the
    public share is the tweaked evaluation of the commitments at i), and
    [verify_share] accepts the secret share of every participant i in
    1..n. *)
Theorem keygen_shares_verify :
  (forall t n r_0 tp,
     (1 <= t <= n)%Z -> (r_0 mod SIZE <> 0)%Z ->
     (Z.to_nat (t - 1) <= length tp)%nat ->
     exists r,
       trusted_dealer_key_generation t n (r_0 :: tp) = Some r
       /\ ((exists x, r = Ok x)
           \/ (exists e, r = Raise e
                         /\ (InvalidCommitment e \/ InvalidGroupKey e
                             \/ ZeroShare e))))
  /\ (forall t n tp vss_commitment secret_shares public_shares,
        trusted_dealer_key_generation t n tp
        = Some (Ok (vss_commitment, secret_shares, public_shares)) ->
        (1 <= t <= n)%Z
        /\ length secret_shares = Z.to_nat n
        /\ length public_shares = Z.to_nat n
        /\ forall i, (1 <= i <= n)%Z ->
             exists d_i P_i A_0 tweak g,
               nth_error secret_shares (Z.to_nat (i - 1)) = Some d_i
               /\ nth_error public_shares (Z.to_nat (i - 1)) = Some P_i
               /\ hd_error vss_commitment = Some A_0
               /\ _taproot_tweak_and_sign A_0 = Ok (tweak, g)
               /\ P_i = tweaked_public_share vss_commitment tweak g i
               /\ verify_share i d_i vss_commitment = Ok true).
Proof.
  split.
  { intros t n r_0 tp Htn Hr Hlen.
    destruct (keygen_enough_tape t n r_0 tp Htn Hr Hlen) as [r E].
    exists r. split; [exact E|]. exact (keygen_outcome t n _ r Htn E). }
  intros t n tp vss_commitment secret_shares public_shares H.
  apply keygen_dealt in H.
  destruct H as (Htn & coeffs & A_0 & tweak & g & Hl & D).
  split; [exact Htn|].
  split.
  { rewrite (dealt_secret _ _ _ _ _ _ _ _ D), length_map, length_range.
    f_equal. lia. }
  split.
  { rewrite (dealt_public _ _ _ _ _ _ _ _ D), length_map, length_range.
    f_equal. lia. }
  intros i Hi.
  destruct (dealt_nth _ _ _ _ _ _ _ _ i D Hi) as (Hs & Hp & _ & _).
  exists (tweaked_secret_share coeffs tweak g i),
         (tweaked_public_share vss_commitment tweak g i), A_0, tweak, g.
  repeat split; try assumption.
  - exact (dealt_head _ _ _ _ _ _ _ _ D).
  - exact (dealt_tweak _ _ _ _ _ _ _ _ D).
  - exact (verify_share_dealt _ _ _ _ _ _ _ _ i D Hi).
Qed.

(** C3. In a successful run, for every i in 1..n the public share at index
    i - 1 equals the secret share at index i - 1 times G, and every secret
    share is nonzero. *)
Theorem keygen_public_share_of_secret t n tp vss_commitment secret_shares
    public_shares :
  trusted_dealer_key_generation t n tp
  = Some (Ok (vss_commitment, secret_shares, public_shares)) ->
  (forall i, (1 <= i <= n)%Z ->
     exists d_i P_i,
       nth_error secret_shares (Z.to_nat (i - 1)) = Some d_i
       /\ nth_error public_shares (Z.to_nat (i - 1)) = Some P_i
       /\ GE_eqb P_i (GE_mul d_i G) = true)
  /\ Forall (fun d => d <> 0) secret_shares.
Proof.
  intros H. apply keygen_dealt in H.
  destruct H as (Htn & coeffs & A_0 & tweak & g & Hl & D).
  split.
  - intros i Hi.
    destruct (dealt_nth _ _ _ _ _ _ _ _ i D Hi) as (Hs & Hp & _ & Heq).
    eexists _, _. repeat split; [exact Hs|exact Hp|].
    apply GE_eqb_eq. exact Heq.
  - rewrite (dealt_secret _ _ _ _ _ _ _ _ D). apply Forall_map.
    eapply Forall_impl; [|exact (dealt_checked _ _ _ _ _ _ _ _ D)].
    intros i [Hnz _]. exact Hnz.
Qed.

(** C4. [verify_share] returns a boolean on every input, and that boolean is
    false for a zero secret share, for a participant id <= 0, for an empty
    commitment list, and for an identity A_0. *)
Theorem verify_share_never_raises :
  (forall participant_id sec_share vss_commitment,
     exists b, verify_share participant_id sec_share vss_commitment = Ok b)
  /\ (forall participant_id vss_commitment,
        verify_share participant_id 0 vss_commitment = Ok false)
  /\ (forall participant_id sec_share vss_commitment,
        (participant_id <= 0)%Z ->
        verify_share participant_id sec_share vss_commitment = Ok false)
  /\ (forall participant_id sec_share,
        verify_share participant_id sec_share [] = Ok false)
  /\ (forall participant_id sec_share rest,
        verify_share participant_id sec_share (GE_infinity :: rest)
        = Ok false).
Proof.
  split; [|split; [|split; [|split]]].
  - intros participant_id sec_share vss_commitment. unfold verify_share.
    destruct (Zmod.eqb sec_share 0); [eexists; reflexivity|].
    destruct (participant_id <=? 0)%Z; [eexists; reflexivity|].
    destruct vss_commitment as [|P rest]; [eexists; reflexivity|].
    destruct (is_infinity P) eqn:HP; [eexists; reflexivity|].
    apply is_infinity_false_iff in HP.
    rewrite (tweak_and_sign_ok P HP). cbn [bind]. eexists; reflexivity.
  - intros participant_id vss_commitment. reflexivity.
  - intros participant_id sec_share vss_commitment Hid. unfold verify_share.
    destruct (Zmod.eqb sec_share 0); [reflexivity|].
    destruct (Z.leb_spec participant_id 0); [reflexivity|lia].
  - intros participant_id sec_share. unfold verify_share.
    destruct (Zmod.eqb sec_share 0); [reflexivity|].
    destruct (participant_id <=? 0)%Z; reflexivity.
  - intros participant_id sec_share rest. unfold verify_share.
    destruct (Zmod.eqb sec_share 0); [reflexivity|].
    destruct (participant_id <=? 0)%Z; [reflexivity|].
    rewrite (proj2 (is_infinity_true_iff GE_infinity) eq_refl). reflexivity.
Qed.

(** C5. [_taproot_tweak_and_sign] fails on the identity point; on every other
    point P it returns the tagged hash of xonly(P) followed by 32 zero
    bytes, reduced to a scalar, with g = 1 when P has even Y and g = -1
    otherwise; two calls on the same point give the same result. *)
Theorem taproot_tweak_and_sign_spec (P : GE) :
  (P = GE_infinity -> exists e, _taproot_tweak_and_sign P = Raise e)
  /\ (P <> GE_infinity ->
      _taproot_tweak_and_sign P
      = Ok (Scalar_of_int
              (int_from_bytes_big
                 (tagged_hash "TapTweak" (xonly P ++ repeat x00 32))
               mod SIZE),
            if even_y P then 1%Z else (-1)%Z))
  /\ (forall r1 r2,
        _taproot_tweak_and_sign P = r1 -> _taproot_tweak_and_sign P = r2 ->
        r1 = r2).
Proof.
  split; [|split].
  - intros ->. exists AssertionError. apply tweak_and_sign_infinity.
  - intros HP. rewrite (tweak_and_sign_ok P HP). reflexivity.
  - intros r1 r2 <- <-. reflexivity.
Qed.

Lemma zero_share_message_not_parameters i :
  ~ InvalidParameters (ValueError (zero_share_message i)).
Proof.
  unfold InvalidParameters, zero_share_message.
  intros [H|H]; cbn [append] in H; discriminate H.
Qed.

(** C7. [trusted_dealer_key_generation t n] fails with InvalidParameters
    exactly when 1 <= t <= n and n >= 1 does not hold, whatever the tape;
    keygen(0, 5) and keygen(3, 2) fail so on the empty tape, before any
    draw. *)
Theorem keygen_invalid_parameters :
  (forall t n tp,
     (exists e, trusted_dealer_key_generation t n tp = Some (Raise e)
                /\ InvalidParameters e)
     <-> ~ ((1 <= t <= n)%Z /\ (n >= 1)%Z))
  /\ (exists e, trusted_dealer_key_generation 0 5 [] = Some (Raise e)
                /\ InvalidParameters e)
  /\ (exists e, trusted_dealer_key_generation 3 2 [] = Some (Raise e)
                /\ InvalidParameters e).
Proof.
  split; [|split].
  - intros t n tp. unfold trusted_dealer_key_generation. split.
    + intros (e & He & Hk) [Htn Hn].
      destruct (Z.ltb_spec n 1) as [|_]; [lia|].
      destruct (Z.leb_spec 1 t) as [_|]; [|lia].
      destruct (Z.leb_spec t n) as [_|]; [|lia]. cbn [andb negb] in He.
      destruct (_random_scalar_nonzero tp) as [[a_0 tp1]|]; [|discriminate].
      destruct (append_random _ _ _) as [[coeffs tp2]|]; [|discriminate].
      injection He as He. apply deal_raises in He.
      destruct He as [->|[->|[->|[->|[i ->]]]]];
        [destruct Hk as [Hk|Hk]; discriminate Hk ..
        |exact (zero_share_message_not_parameters i Hk)].
    + intros Hbad.
      destruct (Z.ltb_spec n 1) as [Hn|Hn].
      * eexists. split; [reflexivity|]. left. reflexivity.
      * destruct (Z.leb_spec 1 t) as [Ht|Ht]; cbn [andb negb].
        -- destruct (Z.leb_spec t n) as [Htn|Htn]; cbn [negb]; [lia|].
           eexists. split; [reflexivity|]. right. reflexivity.
        -- eexists. split; [reflexivity|]. right. reflexivity.
  - eexists. split; [reflexivity|]. right. reflexivity.
  - eexists. split; [reflexivity|]. right. reflexivity.
Qed.

Lemma group_pubkey_from_commitment_returns A_0 rest :
  A_0 <> GE_infinity -> tweaked_key A_0 <> GE_infinity ->
  group_pubkey_from_commitment (A_0 :: rest) = Ok (tweaked_key A_0).
Proof.
  intros HA HQ. unfold group_pubkey_from_commitment.
  rewrite (proj2 (is_infinity_false_iff A_0) HA).
  rewrite (tweak_and_sign_ok A_0 HA). cbn [bind]. fold (tweaked_key A_0).
  rewrite (proj2 (is_infinity_false_iff _) HQ). reflexivity.
Qed.

(** C8. [group_pubkey_from_commitment] is a function of the commitment list
    alone.  It fails exactly when the list is empty, A_0 is the identity, or
    Q = g A_0 + tweak G is the identity, each time with a ValueError;
    otherwise it returns Q. *)
Theorem group_pubkey_from_commitment_spec (vss_commitment : list GE) :
  ((exists e, group_pubkey_from_commitment vss_commitment = Raise e)
   <-> (vss_commitment = []
        \/ exists A_0 rest, vss_commitment = A_0 :: rest
             /\ (A_0 = GE_infinity \/ tweaked_key A_0 = GE_infinity)))
  /\ (forall e, group_pubkey_from_commitment vss_commitment = Raise e ->
        exists msg, e = ValueError msg)
  /\ (forall A_0 rest, vss_commitment = A_0 :: rest ->
        A_0 <> GE_infinity -> tweaked_key A_0 <> GE_infinity ->
        group_pubkey_from_commitment vss_commitment = Ok (tweaked_key A_0)).
Proof.
  unfold group_pubkey_from_commitment.
  destruct vss_commitment as [|P rest].
  { split; [|split].
    - split; [intros _; left; reflexivity|intros _; eexists; reflexivity].
    - intros e [= <-]. eexists; reflexivity.
    - intros A_0 rest' [=]. }
  destruct (is_infinity P) eqn:HP.
  { apply is_infinity_true_iff in HP. split; [|split].
    - split; [|intros _; eexists; reflexivity].
      intros _. right. exists P, rest. split; [reflexivity|left; exact HP].
    - intros e [= <-]. eexists; reflexivity.
    - intros A_0 rest' [= <- <-] HA. contradiction. }
  apply is_infinity_false_iff in HP.
  rewrite (tweak_and_sign_ok P HP). cbn [bind].
  fold (tweaked_key P).
  destruct (is_infinity (tweaked_key P)) eqn:HQ.
  { apply is_infinity_true_iff in HQ. split; [|split].
    - split; [|intros _; eexists; reflexivity].
      intros _. right. exists P, rest. split; [reflexivity|right; exact HQ].
    - intros e [= <-]. eexists; reflexivity.
    - intros A_0 rest' [= <- <-] _ HA. contradiction. }
  apply is_infinity_false_iff in HQ. split; [|split].
  - split; [intros [e He]; discriminate He|].
    intros [E|(A_0 & rest' & [= <- <-] & [E|E])];
      [discriminate E|contradiction|contradiction].
  - intros e He. discriminate He.
  - intros A_0 rest' [= <- <-] _ _. reflexivity.
Qed.

End DealerClaims.

(** ** Reconstruction from public shares *)

Section Reconstruction.

Context {lib : CurveLib}.

Local Open Scope Zmod_scope.

Lemma lagrange_at_zero_returns ids target_id :
  In target_id ids -> NoDup ids ->
  lagrange_denom ids target_id <> 0 ->
  lagrange_at_zero ids target_id = Ok (lagrange_coefficient ids target_id).
Proof.
  intros Hin ND Hd. rewrite lagrange_at_zero_body by assumption.
  rewrite modinv_scalar_nonzero by exact Hd. reflexivity.
Qed.

Lemma lagrange_at_zero_zero_divisor ids target_id :
  In target_id ids -> NoDup ids ->
  lagrange_denom ids target_id = 0 ->
  lagrange_at_zero ids target_id
  = Raise (ValueError "Cannot invert zero scalar").
Proof.
  intros Hin ND Hd. rewrite lagrange_at_zero_body by assumption.
  rewrite Hd. reflexivity.
Qed.

Lemma congruent_ids_iff ids :
  congruent_ids ids <-> Exists (fun i => lagrange_denom ids i = 0) ids.
Proof.
  rewrite Exists_exists. split.
  - intros (i & j & Hi & Hj & Hne & E). exists i. split; [exact Hi|].
    apply lagrange_denom_zero_iff. exists j. repeat split; assumption.
  - intros (i & Hi & Hd). apply lagrange_denom_zero_iff in Hd.
    destruct Hd as (j & Hj & Hne & E). exists i, j. repeat split; assumption.
Qed.

Lemma denom_zero_dec ids i :
  {lagrange_denom ids i = 0} + {lagrange_denom ids i <> 0}.
Proof.
  destruct (Zmod.eqb (lagrange_denom ids i) 0) eqn:B.
  - left. apply Zmod.eqb_eq. exact B.
  - right. intros H. apply Zmod.eqb_eq in H. congruence.
Qed.

Lemma congruent_ids_dec ids : {congruent_ids ids} + {~ congruent_ids ids}.
Proof.
  destruct (Exists_dec (fun i => lagrange_denom ids i = 0) ids
              (denom_zero_dec ids)) as [H|H].
  - left. apply congruent_ids_iff. exact H.
  - right. intros C. apply H. apply congruent_ids_iff. exact C.
Qed.

Lemma interpolation_loop_returns ids pairs :
  NoDup ids ->
  Forall (fun p => In (fst p) ids /\ lagrange_denom ids (fst p) <> 0) pairs ->
  forall Q,
    interpolation_loop ids pairs Q
    = Ok (GE_add Q
            (gsum (map (fun p => GE_mul (lagrange_coefficient ids (fst p))
                                         (snd p)) pairs))).
Proof.
  intros ND. induction pairs as [|[id_i P_i] pairs IH]; intros HF Q;
    cbn [interpolation_loop map gsum].
  - rewrite GE_add_0_r. reflexivity.
  - inversion HF as [|p l [Hin Hd] HF']; subst. cbn [fst snd] in *.
    rewrite lagrange_at_zero_returns by assumption. cbn [bind].
    rewrite (IH HF'), int_mul_int_of_Scalar, GE_add_assoc. reflexivity.
Qed.

Lemma interpolation_loop_zero_divisor ids pairs :
  NoDup ids ->
  Forall (fun p => In (fst p) ids) pairs ->
  Exists (fun p => lagrange_denom ids (fst p) = 0) pairs ->
  forall Q,
    interpolation_loop ids pairs Q
    = Raise (ValueError "Cannot invert zero scalar").
Proof.
  intros ND. induction pairs as [|[id_i P_i] pairs IH]; intros HF HE Q;
    [inversion HE|].
  inversion HF as [|p l Hin HF']; subst. cbn [fst] in Hin.
  cbn [interpolation_loop].
  destruct (denom_zero_dec ids id_i) as [Hz|Hnz].
  - rewrite lagrange_at_zero_zero_divisor by assumption. reflexivity.
  - rewrite lagrange_at_zero_returns by assumption. cbn [bind].
    apply IH; [exact HF'|].
    inversion HE as [p l Hz|p l HE']; subst; [contradiction|exact HE'].
Qed.

Lemma combine_fst_in (ids : list Z) (pubshares : list GE) :
  Forall (fun p => In (fst p) ids) (combine ids pubshares).
Proof.
  apply Forall_forall. intros [i P] H. apply in_combine_l in H. exact H.
Qed.

Lemma combine_covers (ids : list Z) (pubshares : list GE) i :
  length ids = length pubshares -> In i ids ->
  exists P, In (i, P) (combine ids pubshares).
Proof.
  revert pubshares. induction ids as [|j ids IH]; intros pubshares HL Hin;
    [contradiction|].
  destruct pubshares as [|P pubshares]; [discriminate|].
  cbn [length] in HL. injection HL as HL. cbn [combine].
  destruct Hin as [->|Hin].
  - exists P. left. reflexivity.
  - destruct (IH pubshares HL Hin) as [P' HP']. exists P'. right. exact HP'.
Qed.

(** The result of [group_pub_from_tweaked_pubshares] once its three guards
    are passed. *)
Lemma group_pub_congruent ids pubshares :
  length ids = length pubshares -> ids <> [] -> NoDup ids ->
  congruent_ids ids ->
  group_pub_from_tweaked_pubshares ids pubshares
  = Raise (ValueError "Cannot invert zero scalar").
Proof.
  intros HL Hne ND HC. unfold group_pub_from_tweaked_pubshares.
  rewrite (proj2 (Nat.eqb_eq _ _) HL). cbn [negb].
  destruct ids as [|i0 ids0] eqn:Hids; [congruence|]. rewrite <- Hids in *.
  replace (Nat.eqb (length ids) 0) with false by (rewrite Hids; reflexivity).
  rewrite (proj2 (len_set_NoDup ids) ND). cbn [negb].
  rewrite interpolation_loop_zero_divisor;
    [reflexivity|exact ND|apply combine_fst_in|].
  apply congruent_ids_iff in HC. apply Exists_exists in HC.
  destruct HC as (i & Hi & Hd).
  destruct (combine_covers ids pubshares i HL Hi) as [P HP].
  apply Exists_exists. exists (i, P). split; [exact HP|exact Hd].
Qed.

Lemma group_pub_interpolates ids pubshares :
  length ids = length pubshares -> ids <> [] -> NoDup ids ->
  ~ congruent_ids ids ->
  group_pub_from_tweaked_pubshares ids pubshares
  = if is_infinity (interpolated_sum ids pubshares)
    then Raise (ValueError "Interpolation yielded infinity")
    else Ok (interpolated_sum ids pubshares).
Proof.
  intros HL Hne ND HC. unfold group_pub_from_tweaked_pubshares.
  rewrite (proj2 (Nat.eqb_eq _ _) HL). cbn [negb].
  destruct ids as [|i0 ids0] eqn:Hids; [congruence|]. rewrite <- Hids in *.
  replace (Nat.eqb (length ids) 0) with false by (rewrite Hids; reflexivity).
  rewrite (proj2 (len_set_NoDup ids) ND). cbn [negb].
  rewrite interpolation_loop_returns; [|exact ND|].
  - cbn [bind]. rewrite GE_add_0_l. reflexivity.
  - apply Forall_forall. intros [i P] H. cbn [fst].
    pose proof (in_combine_l _ _ _ _ H) as Hi. split; [exact Hi|].
    intros Hd. apply HC. apply congruent_ids_iff.
    apply Exists_exists. exists i. split; assumption.
Qed.

(** Ids that are pairwise different scalars give the coefficients [lam] of
    the interpolation theorem. *)
Lemma other_ids_scalars ids i :
  (forall j, In j ids -> Scalar_of_int j = Scalar_of_int i -> j = i) ->
  map Scalar_of_int (other_ids ids i)
  = others (Scalar_of_int i) (map Scalar_of_int ids).
Proof.
  unfold other_ids, others.
  induction ids as [|j ids IH]; intros Hinj; cbn [filter map]; [reflexivity|].
  assert (IH' := IH (fun k Hk => Hinj k (or_intror Hk))).
  destruct (Z.eqb_spec j i) as [->|Hne]; cbn [negb].
  - destruct (Zmod.eqb_spec (Scalar_of_int i) (Scalar_of_int i));
      [exact IH'|congruence].
  - destruct (Zmod.eqb_spec (Scalar_of_int j) (Scalar_of_int i)) as [E|_].
    + exfalso. apply Hne. apply Hinj; [left; reflexivity|exact E].
    + cbn [negb map]. rewrite IH'. reflexivity.
Qed.

Lemma lagrange_coefficient_lam ids i :
  (forall j, In j ids -> Scalar_of_int j = Scalar_of_int i -> j = i) ->
  lagrange_coefficient ids i
  = lam (map Scalar_of_int ids) (Scalar_of_int i).
Proof.
  intros Hinj. unfold lagrange_coefficient, lagrange_num, lagrange_denom, lam.
  rewrite <- other_ids_scalars by exact Hinj.
  rewrite map_map. reflexivity.
Qed.

Lemma not_congruent_inj ids :
  ~ congruent_ids ids ->
  forall i j, In i ids -> In j ids ->
    Scalar_of_int j = Scalar_of_int i -> j = i.
Proof.
  intros HC i j Hi Hj E. destruct (Z.eq_dec j i) as [|Hne]; [assumption|].
  exfalso. apply HC. exists i, j. repeat split; try assumption.
  apply Scalar_of_int_eq_iff. exact E.
Qed.

Lemma NoDup_scalars ids :
  NoDup ids -> ~ congruent_ids ids -> NoDup (map Scalar_of_int ids).
Proof.
  intros ND HC. pose proof (not_congruent_inj ids HC) as Hinj.
  induction ids as [|i ids IH]; cbn [map]; [constructor|].
  inversion ND as [|i' ids' Hi ND']; subst. constructor.
  - intros Hin. apply in_map_iff in Hin. destruct Hin as (j & E & Hj).
    assert (j = i) by (apply Hinj; [left; reflexivity|right; exact Hj|exact E]).
    subst. contradiction.
  - apply IH; [exact ND'| |].
    + intros (a & b & Ha & Hb & Hne & E). apply HC.
      exists a, b. repeat split; try assumption; right; assumption.
    + intros a b Ha Hb. apply Hinj; right; assumption.
Qed.

(** Interpolating the values of a point polynomial with no more
    coefficients than there are ids returns its constant term. *)
Lemma interpolated_sum_evaluations ids (E : list GE) :
  NoDup ids -> ~ congruent_ids ids -> (length E <= length ids)%nat ->
  interpolated_sum ids
    (map (fun i => point_horner E (Scalar_of_int i)) ids)
  = hd GE_infinity E.
Proof.
  intros ND HC HE. unfold interpolated_sum.
  rewrite <- (point_interpolation (map Scalar_of_int ids) E)
    by (rewrite ?length_map; auto using NoDup_scalars).
  rewrite map_map.
  replace (combine ids (map (fun i => point_horner E (Scalar_of_int i)) ids))
    with (map (fun i => (i, point_horner E (Scalar_of_int i))) ids).
  2:{ clear. induction ids as [|i ids IH]; cbn [map combine];
        [reflexivity|]. rewrite IH. reflexivity. }
  rewrite map_map. cbn [fst snd].
  f_equal. apply map_ext_in. intros i Hi.
  rewrite lagrange_coefficient_lam; [reflexivity|].
  intros j Hj Ej. exact (not_congruent_inj ids HC i j Hi Hj Ej).
Qed.

(** Ids in 1..n with n below the group order are different scalars. *)
Lemma small_ids_not_congruent ids n :
  (n < SIZE)%Z -> (forall i, In i ids -> (1 <= i <= n)%Z) ->
  ~ congruent_ids ids.
Proof.
  intros Hn Hids (i & j & Hi & Hj & Hne & E).
  apply Hids in Hi, Hj. rewrite !Z.mod_small in E by lia. congruence.
Qed.

(** The public shares of a run are the values of the tweaked commitment
    polynomial. *)
Lemma tweaked_public_share_horner A_0 rest tweak g i :
  tweaked_public_share (A_0 :: rest) tweak g i
  = point_horner (tweaked_commitments (Scalar_of_int g) tweak (A_0 :: rest))
                 (Scalar_of_int i).
Proof.
  unfold tweaked_public_share, int_mul.
  rewrite eval_point_poly_horner, point_horner_tweaked. reflexivity.
Qed.

Lemma tweak_and_sign_key A_0 tweak g :
  _taproot_tweak_and_sign A_0 = Ok (tweak, g) ->
  A_0 <> GE_infinity ->
  tweaked_key A_0 = GE_add (int_mul g A_0) (GE_mul tweak G).
Proof.
  intros H HA. rewrite (tweak_and_sign_ok A_0 HA) in H.
  injection H as <- <-. reflexivity.
Qed.

(** Any quorum of at least as many ids as there are commitments
    reconstructs the tweaked group key of a run. *)
Lemma dealt_reconstruction coeffs n vss_commitment secret_shares public_shares
    A_0 tweak g ids :
  dealt coeffs n vss_commitment secret_shares public_shares A_0 tweak g ->
  (n < SIZE)%Z ->
  NoDup ids -> (forall i, In i ids -> (1 <= i <= n)%Z) ->
  (length coeffs <= length ids)%nat ->
  group_pub_from_tweaked_pubshares ids
    (map (fun i => nth (Z.to_nat (i - 1)) public_shares GE_infinity) ids)
  = Ok (GE_add (int_mul g A_0) (GE_mul tweak G)).
Proof.
  intros D Hn ND Hids HL.
  pose proof (small_ids_not_congruent ids n Hn Hids) as HC.
  pose proof (dealt_head _ _ _ _ _ _ _ _ D) as Hh.
  destruct vss_commitment as [|P rest] eqn:Hc; [discriminate|].
  injection Hh as ->.
  assert (Hlen : length (A_0 :: rest) = length coeffs).
  { rewrite (dealt_commitment _ _ _ _ _ _ _ _ D), length_map. reflexivity. }
  assert (Hne : ids <> []).
  { intros ->. cbn [length] in *. lia. }
  set (E := tweaked_commitments (Scalar_of_int g) tweak (A_0 :: rest)).
  replace (map (fun i => nth (Z.to_nat (i - 1)) public_shares GE_infinity) ids)
    with (map (fun i => point_horner E (Scalar_of_int i)) ids).
  2:{ apply map_ext_in. intros i Hi. apply Hids in Hi.
      destruct (dealt_nth _ _ _ _ _ _ _ _ i D Hi) as (_ & Hp & _ & _).
      rewrite (nth_error_nth _ _ _ Hp).
      symmetry. apply tweaked_public_share_horner. }
  rewrite group_pub_interpolates
    by (rewrite ?length_map; auto).
  rewrite interpolated_sum_evaluations; try assumption.
  2:{ unfold E. rewrite length_tweaked_commitments. lia. }
  cbn [E tweaked_commitments hd]. fold (int_mul g A_0).
  rewrite (proj2 (is_infinity_false_iff _) (dealt_Q _ _ _ _ _ _ _ _ D)).
  reflexivity.
Qed.

End Reconstruction.

(** ** Lagrange coefficients and reconstruction *)

Section ReconstructionClaims.

Context {lib : CurveLib}.

Local Open Scope Zmod_scope.

Lemma keygen_group_key t n tp vss_commitment secret_shares public_shares :
  trusted_dealer_key_generation t n tp
  = Some (Ok (vss_commitment, secret_shares, public_shares)) ->
  exists coeffs A_0 tweak g,
    length coeffs = Z.to_nat t
    /\ dealt coeffs n vss_commitment secret_shares public_shares A_0 tweak g
    /\ group_pubkey_from_commitment vss_commitment
       = Ok (GE_add (int_mul g A_0) (GE_mul tweak G)).
Proof.
  intros H. apply keygen_dealt in H.
  destruct H as (_ & coeffs & A_0 & tweak & g & Hl & D).
  exists coeffs, A_0, tweak, g. split; [exact Hl|]. split; [exact D|].
  pose proof (dealt_head _ _ _ _ _ _ _ _ D) as Hh.
  destruct vss_commitment as [|P rest] eqn:Hc; [discriminate|].
  injection Hh as ->.
  pose proof (dealt_A_0 _ _ _ _ _ _ _ _ D) as HA.
  pose proof (tweak_and_sign_key A_0 tweak g
                (dealt_tweak _ _ _ _ _ _ _ _ D) HA) as HK.
  rewrite <- HK.
  apply (group_pubkey_from_commitment_returns A_0 rest HA).
  rewrite HK. exact (dealt_Q _ _ _ _ _ _ _ _ D).
Qed.

(** C2. In a successful run with n below the group order,
    [group_pubkey_from_commitment] returns the group key
    Q = g A_0 + tweak G of the run, and
    [group_pub_from_tweaked_pubshares] returns the same Q for every list of
    at least t distinct participant ids in 1..n paired with the public
    shares at their indices; so all such quorums reconstruct the same
    key. *)
Theorem group_key_reconstruction t n tp vss_commitment secret_shares
    public_shares :
  trusted_dealer_key_generation t n tp
  = Some (Ok (vss_commitment, secret_shares, public_shares)) ->
  (n < SIZE)%Z ->
  exists A_0 tweak g,
    hd_error vss_commitment = Some A_0
    /\ _taproot_tweak_and_sign A_0 = Ok (tweak, g)
    /\ group_pubkey_from_commitment vss_commitment
       = Ok (GE_add (int_mul g A_0) (GE_mul tweak G))
    /\ forall ids,
         NoDup ids -> (forall i, In i ids -> (1 <= i <= n)%Z) ->
         (Z.to_nat t <= length ids)%nat ->
         group_pub_from_tweaked_pubshares ids
           (map (fun i => nth (Z.to_nat (i - 1)) public_shares GE_infinity)
                ids)
         = Ok (GE_add (int_mul g A_0) (GE_mul tweak G)).
Proof.
  intros H Hn. apply keygen_group_key in H.
  destruct H as (coeffs & A_0 & tweak & g & Hl & D & HQ).
  exists A_0, tweak, g.
  split; [exact (dealt_head _ _ _ _ _ _ _ _ D)|].
  split; [exact (dealt_tweak _ _ _ _ _ _ _ _ D)|].
  split; [exact HQ|].
  intros ids ND Hids Ht.
  apply (dealt_reconstruction _ _ _ _ _ _ _ _ ids D Hn ND Hids). lia.
Qed.

(** C6, amended.  [lagrange_at_zero] fails with InconsistentInput when the
    target is not among the ids or the ids contain duplicates.  Otherwise it
    finishes the running numerator and denominator products with one
    modular inverse: when no other id is congruent to the target modulo the
    group order it returns the product of the j / (j - target_id), and when
    some other id is congruent to the target it fails with ZeroDivisor.
    The inverse fails, with ZeroDivisor, exactly on zero. *)
Theorem lagrange_at_zero_spec (ids : list Z) (target_id : Z) :
  (~ In target_id ids \/ ~ NoDup ids ->
   exists e, lagrange_at_zero ids target_id = Raise e
             /\ InconsistentInput e)
  /\ (In target_id ids -> NoDup ids ->
      lagrange_at_zero ids target_id
      = (denom_inv <- modinv_scalar (lagrange_denom ids target_id) ;;
         Ok (lagrange_num ids target_id * denom_inv)))
  /\ (In target_id ids -> NoDup ids ->
      (forall j, In j ids -> j <> target_id ->
         (j mod SIZE <> target_id mod SIZE)%Z) ->
      lagrange_at_zero ids target_id
      = Ok (Zmod.mdiv (lagrange_num ids target_id)
                      (lagrange_denom ids target_id)))
  /\ (In target_id ids -> NoDup ids ->
      (exists j, In j ids /\ j <> target_id
                 /\ (j mod SIZE = target_id mod SIZE)%Z) ->
      exists e, lagrange_at_zero ids target_id = Raise e /\ ZeroDivisor e)
  /\ (forall x : Scalar,
        (x = 0 -> exists e, modinv_scalar x = Raise e /\ ZeroDivisor e)
        /\ (x <> 0 -> exists y, modinv_scalar x = Ok y /\ x * y = 1)).
Proof.
  split; [|split; [|split; [|split]]].
  - intros Hbad. destruct (in_dec Z.eq_dec target_id ids) as [Hin|Hnin].
    + destruct Hbad as [Hbad|Hbad]; [contradiction|].
      rewrite lagrange_at_zero_duplicates by assumption.
      eexists. split; [reflexivity|]. right. left. reflexivity.
    + rewrite lagrange_at_zero_not_in by assumption.
      eexists. split; [reflexivity|]. left. reflexivity.
  - apply lagrange_at_zero_body.
  - intros Hin ND Hsep.
    apply (lagrange_at_zero_returns ids target_id Hin ND).
    intros Hd. apply lagrange_denom_zero_iff in Hd.
    destruct Hd as (j & Hj & Hne & E). exact (Hsep j Hj Hne E).
  - intros Hin ND Hex.
    rewrite lagrange_at_zero_zero_divisor; try assumption.
    + eexists. split; reflexivity.
    + apply lagrange_denom_zero_iff. exact Hex.
  - intros x. split.
    + intros ->. eexists. split; reflexivity.
    + intros Hx. exists (Zmod.inv x).
      split; [apply modinv_scalar_nonzero; exact Hx
             |apply mul_inv_scalar; exact Hx].
Qed.

(** C9, amended.  [group_pub_from_tweaked_pubshares] fails exactly when the
    lists differ in length, the input is empty, the ids contain duplicates,
    two different ids are congruent modulo the group order (the Lagrange
    step divides by zero), or the interpolated sum of the lam_i P_i is the
    identity.  A returned point is that sum and never the identity.  For
    a successful run with t = 2 and n = 3, the ids [1, 2] and [2, 3] with
    their public shares both return the key that
    [group_pubkey_from_commitment] returns. *)
Theorem group_pub_from_tweaked_pubshares_spec :
  (forall ids pubshares,
     (exists e, group_pub_from_tweaked_pubshares ids pubshares = Raise e)
     <-> (length ids <> length pubshares \/ ids = [] \/ ~ NoDup ids
          \/ congruent_ids ids
          \/ interpolated_sum ids pubshares = GE_infinity))
  /\ (forall ids pubshares,
        length ids = length pubshares -> ids <> [] -> NoDup ids ->
        congruent_ids ids ->
        exists e, group_pub_from_tweaked_pubshares ids pubshares = Raise e
                  /\ ZeroDivisor e)
  /\ (forall ids pubshares Q,
        group_pub_from_tweaked_pubshares ids pubshares = Ok Q ->
        Q <> GE_infinity /\ Q = interpolated_sum ids pubshares)
  /\ (forall tp vss_commitment secret_shares public_shares,
        trusted_dealer_key_generation 2 3 tp
        = Some (Ok (vss_commitment, secret_shares, public_shares)) ->
        exists P1 P2 P3 Q,
          public_shares = [P1; P2; P3]
          /\ group_pub_from_tweaked_pubshares [1; 2]%Z [P1; P2] = Ok Q
          /\ group_pub_from_tweaked_pubshares [2; 3]%Z [P2; P3] = Ok Q
          /\ group_pubkey_from_commitment vss_commitment = Ok Q).
Proof.
  assert (Hcases : forall ids pubshares,
    (length ids <> length pubshares
     /\ group_pub_from_tweaked_pubshares ids pubshares
        = Raise (ValueError "ids and pubshares length mismatch"))
    \/ (length ids = length pubshares /\ ids = []
        /\ group_pub_from_tweaked_pubshares ids pubshares
           = Raise (ValueError "need at least one share"))
    \/ (length ids = length pubshares /\ ids <> [] /\ ~ NoDup ids
        /\ group_pub_from_tweaked_pubshares ids pubshares
           = Raise (ValueError "duplicate ids not allowed"))
    \/ (length ids = length pubshares /\ ids <> [] /\ NoDup ids
        /\ congruent_ids ids
        /\ group_pub_from_tweaked_pubshares ids pubshares
           = Raise (ValueError "Cannot invert zero scalar"))
    \/ (length ids = length pubshares /\ ids <> [] /\ NoDup ids
        /\ ~ congruent_ids ids
        /\ group_pub_from_tweaked_pubshares ids pubshares
           = if is_infinity (interpolated_sum ids pubshares)
             then Raise (ValueError "Interpolation yielded infinity")
             else Ok (interpolated_sum ids pubshares))).
  { intros ids pubshares.
    destruct (Nat.eq_dec (length ids) (length pubshares)) as [HL|HL].
    2:{ left. split; [exact HL|]. unfold group_pub_from_tweaked_pubshares.
        rewrite (proj2 (Nat.eqb_neq _ _) HL). reflexivity. }
    right. destruct ids as [|i0 ids0] eqn:Hids.
    { left. repeat split; [exact HL|].
      destruct pubshares; [reflexivity|discriminate]. }
    rewrite <- Hids in *. assert (Hne : ids <> []) by (rewrite Hids; discriminate).
    right. destruct (Nat.eqb (len_set ids) (length ids)) eqn:Hset.
    2:{ left. repeat split; try assumption.
        - intros ND. apply len_set_NoDup in ND. congruence.
        - unfold group_pub_from_tweaked_pubshares.
          rewrite (proj2 (Nat.eqb_eq _ _) HL), Hset.
          replace (Nat.eqb (length ids) 0) with false
            by (rewrite Hids; reflexivity).
          reflexivity. }
    apply len_set_NoDup in Hset. right.
    destruct (congruent_ids_dec ids) as [HC|HC].
    - left. repeat split; try assumption.
      apply group_pub_congruent; assumption.
    - right. repeat split; try assumption.
      apply group_pub_interpolates; assumption. }
  split; [|split; [|split]].
  - intros ids pubshares. split.
    + intros [e He].
      destruct (Hcases ids pubshares)
        as [(H1 & _)|[(_ & H2 & _)|[(_ & _ & H3 & _)|[(_ & _ & _ & H4 & _)
           |(_ & _ & _ & _ & H5)]]]]; auto 6.
      do 4 right. rewrite H5 in He.
      destruct (is_infinity (interpolated_sum ids pubshares)) eqn:B;
        [|discriminate].
      apply is_infinity_true_iff. exact B.
    + intros Hbad.
      destruct (Hcases ids pubshares)
        as [(H1 & ->)|[(_ & H2 & ->)|[(_ & _ & H3 & ->)|[(_ & _ & _ & H4 & ->)
           |(HL & Hne & ND & HC & ->)]]]]; try (eexists; reflexivity).
      destruct Hbad as [Hb|[Hb|[Hb|[Hb|Hb]]]]; try contradiction.
      rewrite (proj2 (is_infinity_true_iff _) Hb). eexists; reflexivity.
  - intros ids pubshares HL Hne ND HC.
    rewrite group_pub_congruent by assumption.
    eexists. split; reflexivity.
  - intros ids pubshares Q HQ.
    destruct (Hcases ids pubshares)
      as [(_ & E)|[(_ & _ & E)|[(_ & _ & _ & E)|[(_ & _ & _ & _ & E)
         |(_ & _ & _ & _ & E)]]]]; rewrite E in HQ; try discriminate HQ.
    destruct (is_infinity (interpolated_sum ids pubshares)) eqn:B;
      [discriminate|].
    injection HQ as <-. split; [|reflexivity].
    apply is_infinity_false_iff. exact B.
  - intros tp vss_commitment secret_shares public_shares H.
    apply keygen_group_key in H.
    destruct H as (coeffs & A_0 & tweak & g & Hl & D & HQ).
    assert (Hn : (3 < SIZE)%Z) by (pose proof SIZE_ge_2; unfold SIZE; lia).
    pose proof (dealt_public _ _ _ _ _ _ _ _ D) as Hp.
    change (range 1 (3 + 1)) with [1; 2; 3]%Z in Hp. cbn [map] in Hp.
    eexists _, _, _, _. split; [exact Hp|].
    split; [|split; [|exact HQ]].
    + rewrite <- (dealt_reconstruction _ _ _ _ _ _ _ _ [1; 2]%Z D Hn).
      * rewrite Hp. reflexivity.
      * repeat constructor; cbn [In]; lia.
      * cbn [In]. intros i [<-|[<-|[]]]; lia.
      * rewrite Hl. cbn [length]. lia.
    + rewrite <- (dealt_reconstruction _ _ _ _ _ _ _ _ [2; 3]%Z D Hn).
      * rewrite Hp. reflexivity.
      * repeat constructor; cbn [In]; lia.
      * cbn [In]. intros i [<-|[<-|[]]]; lia.
      * rewrite Hl. cbn [length]. lia.
Qed.

(** C10. For a single id i with 0 < i below the group order,
    [lagrange_at_zero] on [i] and i returns the scalar 1, and
    [group_pub_from_tweaked_pubshares] on [i] and [P] returns P itself for
    every non-identity point P: one share is accepted and echoed back,
    whatever the threshold was. *)
Theorem single_share_is_echoed (i : Z) (P : GE) :
  (0 < i < SIZE)%Z -> P <> GE_infinity ->
  lagrange_at_zero [i] i = Ok 1
  /\ group_pub_from_tweaked_pubshares [i] [P] = Ok P.
Proof.
  intros Hi HP.
  assert (Hone : (1 : Scalar) <> 0)
    by (apply Zmod.one_neq_zero; pose proof SIZE_ge_2; lia).
  assert (Ho : other_ids [i] i = []).
  { unfold other_ids. cbn [filter]. rewrite Z.eqb_refl. reflexivity. }
  assert (HL : lagrange_at_zero [i] i = Ok 1).
  { rewrite lagrange_at_zero_returns.
    - unfold lagrange_coefficient, lagrange_num, lagrange_denom.
      rewrite Ho. cbn [map sprod]. reflexivity.
    - left. reflexivity.
    - repeat constructor. intros [].
    - unfold lagrange_denom. rewrite Ho. exact Hone. }
  split; [exact HL|].
  unfold group_pub_from_tweaked_pubshares.
  cbn [length Nat.eqb negb combine interpolation_loop].
  unfold len_set. cbn [nodup in_dec length Nat.eqb negb].
  rewrite HL. cbn [bind interpolation_loop].
  rewrite int_mul_int_of_Scalar, GE_mul_1_l, GE_add_0_l.
  rewrite (proj2 (is_infinity_false_iff P) HP). reflexivity.
Qed.

End ReconstructionClaims.

(** ** Concrete runs

    The theorems above at concrete inputs, on the curve library
    [DlogModel.lib]: the dealer's run with t = 2, n = 3 and the draws 4
    and 5. *)

Module ConcreteRuns.

Import DlogModel.

Local Open Scope Zmod_scope.

Lemma concrete_run :
  @trusted_dealer_key_generation lib 2 3 [4; 5]%Z
  = Some (Ok (run_commitment, run_secret_shares, run_public_shares)).
Proof. vm_compute. reflexivity. Defined.

Lemma keygen_shares_verify_witness :
  @trusted_dealer_key_generation lib 2 3 [4; 5]%Z
  = Some (Ok (run_commitment, run_secret_shares, run_public_shares))
  /\ length run_secret_shares = 3%nat
  /\ length run_public_shares = 3%nat.
Proof.
  split; [exact concrete_run|].
  pose proof (proj2 (@keygen_shares_verify lib) 2%Z 3%Z [4; 5]%Z _ _ _
                concrete_run) as (_ & Hs & Hp & _).
  split; [exact Hs|exact Hp].
Defined.

Lemma group_key_reconstruction_witness :
  @trusted_dealer_key_generation lib 2 3 [4; 5]%Z
  = Some (Ok (run_commitment, run_secret_shares, run_public_shares))
  /\ (3 < SIZE)%Z
  /\ @group_pub_from_tweaked_pubshares lib [3; 1]%Z
       [Scalar_of_int 23; Scalar_of_int 13]
     = @group_pubkey_from_commitment lib run_commitment.
Proof.
  assert (Hn : (3 < SIZE)%Z) by reflexivity.
  split; [exact concrete_run|]. split; [exact Hn|].
  destruct (@group_key_reconstruction lib 2 3 [4; 5]%Z _ _ _ concrete_run Hn)
    as (A_0 & tweak & g & _ & _ & HQ & Hrec).
  rewrite HQ. apply (Hrec [3; 1]%Z).
  - repeat constructor; cbn [In]; intros H; repeat destruct H as [H|H];
      try discriminate H; exact H.
  - cbn [In]. intros i [<-|[<-|[]]]; split; discriminate.
  - cbn [length]. apply le_n.
Defined.

Lemma keygen_public_share_of_secret_witness :
  @trusted_dealer_key_generation lib 2 3 [4; 5]%Z
  = Some (Ok (run_commitment, run_secret_shares, run_public_shares))
  /\ Forall (fun d : Scalar => d <> 0) run_secret_shares.
Proof.
  split; [exact concrete_run|].
  exact (proj2 (@keygen_public_share_of_secret lib 2 3 [4; 5]%Z _ _ _
                  concrete_run)).
Defined.

Lemma verify_share_never_raises_witness :
  (-1 <= 0)%Z
  /\ @verify_share lib (-1) (Scalar_of_int 13) run_commitment = Ok false.
Proof.
  assert (H : (-1 <= 0)%Z) by discriminate.
  split; [exact H|].
  exact (proj1 (proj2 (proj2 (@verify_share_never_raises lib)))
           (-1)%Z (Scalar_of_int 13) run_commitment H).
Defined.

Lemma four_is_not_infinity : Scalar_of_int 4 <> @GE_infinity lib.
Proof.
  intros H. apply (f_equal Zmod.to_Z) in H. vm_compute in H. discriminate H.
Defined.

Lemma taproot_tweak_and_sign_spec_witness :
  Scalar_of_int 4 <> @GE_infinity lib
  /\ @_taproot_tweak_and_sign lib (Scalar_of_int 4) = Ok (Scalar_of_int 4, 1%Z).
Proof.
  split; [exact four_is_not_infinity|].
  rewrite (proj1 (proj2 (@taproot_tweak_and_sign_spec lib (Scalar_of_int 4)))
             four_is_not_infinity).
  vm_compute. reflexivity.
Defined.

Lemma keygen_invalid_parameters_witness :
  ~ ((1 <= 0 <= 5)%Z /\ (5 >= 1)%Z)
  /\ exists e, @trusted_dealer_key_generation lib 0 5 [4; 5]%Z = Some (Raise e)
               /\ InvalidParameters e.
Proof.
  assert (H : ~ ((1 <= 0 <= 5)%Z /\ (5 >= 1)%Z)).
  { intros [[H _] _]. apply H. reflexivity. }
  split; [exact H|].
  exact (proj2 (proj1 (@keygen_invalid_parameters lib) 0%Z 5%Z [4; 5]%Z) H).
Defined.

Lemma group_pubkey_from_commitment_spec_witness :
  Scalar_of_int 4 <> @GE_infinity lib
  /\ @tweaked_key lib (Scalar_of_int 4) <> @GE_infinity lib
  /\ @group_pubkey_from_commitment lib run_commitment = Ok (Scalar_of_int 8).
Proof.
  assert (HQ : @tweaked_key lib (Scalar_of_int 4) <> @GE_infinity lib).
  { intros H. apply (f_equal Zmod.to_Z) in H. vm_compute in H. discriminate H. }
  split; [exact four_is_not_infinity|]. split; [exact HQ|].
  rewrite (proj2 (proj2 (@group_pubkey_from_commitment_spec lib run_commitment))
             (Scalar_of_int 4) [Scalar_of_int 5] eq_refl
             four_is_not_infinity HQ).
  vm_compute. reflexivity.
Defined.

Lemma lagrange_at_zero_spec_witness :
  In 2%Z [1; 2; 3]%Z /\ NoDup [1; 2; 3]%Z
  /\ lagrange_at_zero [1; 2; 3]%Z 2 = Ok (Scalar_of_int (-3)).
Proof.
  assert (Hin : In 2%Z [1; 2; 3]%Z) by (right; left; reflexivity).
  assert (ND : NoDup [1; 2; 3]%Z).
  { repeat constructor; cbn [In]; intros H; repeat destruct H as [H|H];
      try discriminate H; exact H. }
  split; [exact Hin|]. split; [exact ND|].
  rewrite (proj1 (proj2 (proj2 (lagrange_at_zero_spec [1; 2; 3]%Z 2%Z)))
             Hin ND).
  - vm_compute. reflexivity.
  - cbn [In]. intros j [<-|[<-|[<-|[]]]] Hne; vm_compute;
      try discriminate; contradiction Hne; reflexivity.
Defined.

Lemma group_pub_from_tweaked_pubshares_spec_witness :
  @trusted_dealer_key_generation lib 2 3 [4; 5]%Z
  = Some (Ok (run_commitment, run_secret_shares, run_public_shares))
  /\ exists Q,
       @group_pub_from_tweaked_pubshares lib [1; 2]%Z
         [Scalar_of_int 13; Scalar_of_int 18] = Ok Q
       /\ @group_pub_from_tweaked_pubshares lib [2; 3]%Z
            [Scalar_of_int 18; Scalar_of_int 23] = Ok Q
       /\ @group_pubkey_from_commitment lib run_commitment = Ok Q.
Proof.
  split; [exact concrete_run|].
  destruct (proj2 (proj2 (proj2 (@group_pub_from_tweaked_pubshares_spec lib)))
              [4; 5]%Z _ _ _ concrete_run)
    as (P1 & P2 & P3 & Q & Hp & H12 & H23 & HQ).
  injection Hp as <- <- <-.
  exists Q. split; [exact H12|]. split; [exact H23|exact HQ].
Defined.

Lemma one_is_not_infinity : Scalar_of_int 1 <> @GE_infinity lib.
Proof.
  intros H. apply (f_equal Zmod.to_Z) in H. vm_compute in H. discriminate H.
Defined.

Lemma single_share_is_echoed_witness :
  (0 < 7 < SIZE)%Z /\ Scalar_of_int 1 <> @GE_infinity lib
  /\ lagrange_at_zero [7]%Z 7 = Ok 1
  /\ @group_pub_from_tweaked_pubshares lib [7]%Z [Scalar_of_int 1]
     = Ok (Scalar_of_int 1).
Proof.
  assert (Hi : (0 < 7 < SIZE)%Z) by (split; reflexivity).
  split; [exact Hi|]. split; [exact one_is_not_infinity|].
  exact (@single_share_is_echoed lib 7%Z (Scalar_of_int 1) Hi
           one_is_not_infinity).
Defined.

(** Two ids that differ by the group order are different integers and the
    same scalar: the target is among the ids and the ids contain no
    duplicates, yet the inverse of the zero denominator fails. *)
Lemma lagrange_at_zero_congruent_counterexample :
  In 1%Z [1; SIZE + 1]%Z /\ NoDup [1; SIZE + 1]%Z
  /\ lagrange_at_zero [1; SIZE + 1]%Z 1
     = Raise (ValueError "Cannot invert zero scalar")
  /\ ~ (exists s, lagrange_at_zero [1; SIZE + 1]%Z 1 = Ok s).
Proof.
  assert (E : lagrange_at_zero [1; SIZE + 1]%Z 1
              = Raise (ValueError "Cannot invert zero scalar"))
    by (vm_compute; reflexivity).
  split; [left; reflexivity|]. split.
  - repeat constructor; cbn [In]; intros H; repeat destruct H as [H|H];
      try discriminate H; exact H.
  - split; [exact E|]. intros [s Hs]. rewrite E in Hs. discriminate Hs.
Qed.

(** The lists have the same length, are not empty, hold no duplicate id,
    and the sum of the lam_i P_i is not the identity; the call fails all
    the same, in the Lagrange step. *)
Lemma group_pub_congruent_counterexample :
  @group_pub_from_tweaked_pubshares lib [1; SIZE + 1; 2]%Z
    [Scalar_of_int 1; Scalar_of_int 1; Scalar_of_int 1]
  = Raise (ValueError "Cannot invert zero scalar")
  /\ ~ (length [1; SIZE + 1; 2]%Z
        <> length [Scalar_of_int 1; Scalar_of_int 1; Scalar_of_int 1]
        \/ [1; SIZE + 1; 2]%Z = []
        \/ ~ NoDup [1; SIZE + 1; 2]%Z
        \/ @interpolated_sum lib [1; SIZE + 1; 2]%Z
             [Scalar_of_int 1; Scalar_of_int 1; Scalar_of_int 1]
           = @GE_infinity lib).
Proof.
  split.
  - vm_compute. reflexivity.
  - intros [H|[H|[H|H]]].
    + apply H. reflexivity.
    + discriminate H.
    + apply H. repeat constructor; cbn [In]; intros H';
        repeat destruct H' as [H'|H']; try discriminate H'; exact H'.
    + apply (f_equal Zmod.to_Z) in H. vm_compute in H. discriminate H.
Qed.

End ConcreteRuns.

(** * Further properties of the code *)

(** ** Sampling and the use of the tape *)

Section Sampling.

Local Open Scope Zmod_scope.

Lemma from_int_wrapping_unsigned r :
  Zmod.to_Z (from_int_wrapping r) = (r mod SIZE)%Z.
Proof.
  unfold from_int_wrapping, Scalar_of_int.
  rewrite Zmod.unsigned_of_Z. apply Zmod_mod.
Qed.

Lemma from_int_wrapping_zero_iff r :
  from_int_wrapping r = 0 <-> (r mod SIZE = 0)%Z.
Proof.
  rewrite <- Zmod.unsigned_0_iff, from_int_wrapping_unsigned. reflexivity.
Qed.

(** X1. [_random_scalar_nonzero] skips the draws that are zero modulo the
    group order and returns the first other draw reduced modulo the order,
    a scalar in 1..n-1, with the rest of the tape; it finds no scalar
    exactly when every draw on the tape is zero modulo the order. *)
Theorem random_scalar_nonzero_spec (tp : tape) :
  (forall s rest,
     _random_scalar_nonzero tp = Some (s, rest) ->
     exists skipped r,
       tp = skipped ++ r :: rest
       /\ Forall (fun z => (z mod SIZE = 0)%Z) skipped
       /\ Zmod.to_Z s = (r mod SIZE)%Z
       /\ (0 < Zmod.to_Z s < SIZE)%Z)
  /\ (_random_scalar_nonzero tp = None
      <-> Forall (fun z => (z mod SIZE = 0)%Z) tp).
Proof.
  induction tp as [|r tp [IHs IHn]]; cbn [_random_scalar_nonzero].
  - split; [discriminate|]. split; [constructor|reflexivity].
  - cbv zeta.
    destruct (Zmod.eqb_spec (from_int_wrapping r) 0) as [E|E]; cbn [negb].
    + apply from_int_wrapping_zero_iff in E. split.
      * intros s rest H. destruct (IHs s rest H) as (skipped & r' & -> & HF & Hs).
        exists (r :: skipped), r'. split; [reflexivity|].
        split; [constructor; assumption|exact Hs].
      * rewrite IHn. split; [intros H; constructor; assumption|].
        intros H. inversion H; assumption.
    + split.
      * intros s rest [= <- <-]. exists [], r. split; [reflexivity|].
        split; [constructor|]. split; [apply from_int_wrapping_unsigned|].
        pose proof (Zmod.unsigned_pos_bound (from_int_wrapping r)
                      ltac:(pose proof SIZE_ge_2; lia)).
        pose proof (Zmod.unsigned_nz _ E). lia.
      * split; [discriminate|]. intros H. inversion H as [|? ? Hr _]; subst.
        apply from_int_wrapping_zero_iff in Hr. contradiction.
Qed.

Lemma random_scalar_nonzero_app tp extra s rest :
  _random_scalar_nonzero tp = Some (s, rest) ->
  _random_scalar_nonzero (tp ++ extra) = Some (s, rest ++ extra).
Proof.
  induction tp as [|r tp IH]; cbn [_random_scalar_nonzero app]; [discriminate|].
  cbv zeta. destruct (negb _); [intros [= <- <-]; reflexivity|exact IH].
Qed.

Lemma append_random_app k :
  forall coeffs tp extra coeffs' rest,
    append_random k coeffs tp = Some (coeffs', rest) ->
    append_random k coeffs (tp ++ extra) = Some (coeffs', rest ++ extra).
Proof.
  induction k as [|k IH]; intros coeffs tp extra coeffs' rest;
    cbn [append_random].
  - intros [= <- <-]. reflexivity.
  - destruct tp as [|r tp]; cbn [_random_scalar app]; [discriminate|].
    apply IH.
Qed.

(** The coefficients are the draws reduced modulo the order: the first
    nonzero draw, then the next t - 1 draws. *)
Lemma append_random_draws k :
  forall coeffs tp,
    (k <= length tp)%nat ->
    append_random k coeffs tp
    = Some (coeffs ++ map from_int_wrapping (firstn k tp), skipn k tp).
Proof.
  induction k as [|k IH]; intros coeffs tp Hk; cbn [append_random].
  - cbn [firstn skipn map]. rewrite app_nil_r. reflexivity.
  - destruct tp as [|r tp]; [cbn [length] in Hk; lia|].
    cbn [_random_scalar firstn skipn map]. rewrite IH by (cbn [length] in Hk; lia).
    rewrite <- app_assoc. reflexivity.
Qed.

End Sampling.

Section TapeUse.

Context {lib : CurveLib}.

(** X2. [trusted_dealer_key_generation] rejects a first draw that is zero
    modulo the group order and goes on with the next draw, and it never
    reads the tape past the draws it needs: a result on a tape is the
    result on every extension of the tape. *)
Theorem keygen_tape_use (t n : Z) :
  (forall r_0 tp,
     (r_0 mod SIZE = 0)%Z ->
     trusted_dealer_key_generation t n (r_0 :: tp)
     = trusted_dealer_key_generation t n tp)
  /\ (forall tp extra r,
        trusted_dealer_key_generation t n tp = Some r ->
        trusted_dealer_key_generation t n (tp ++ extra) = Some r).
Proof.
  unfold trusted_dealer_key_generation. split.
  - intros r_0 tp Hr. cbn [_random_scalar_nonzero]. cbv zeta.
    rewrite (proj2 (from_int_wrapping_zero_iff r_0) Hr).
    rewrite (proj2 (Zmod.eqb_eq _ _) eq_refl). reflexivity.
  - intros tp extra r.
    destruct (n <? 1)%Z; [trivial|].
    destruct (negb _); [trivial|].
    destruct (_random_scalar_nonzero tp) as [[a_0 tp1]|] eqn:E1; [|discriminate].
    rewrite (random_scalar_nonzero_app tp extra a_0 tp1 E1).
    destruct (append_random _ _ tp1) as [[coeffs tp2]|] eqn:E2; [|discriminate].
    rewrite (append_random_app _ _ _ extra _ _ E2). trivial.
Qed.

End TapeUse.

(** ** Polynomial evaluation *)

Section PowerSums.

Local Open Scope Zmod_scope.

Lemma pow_succ_nat (x : Scalar) (j : nat) :
  Zmod.pow x (Z.of_nat (S j)) = x * Zmod.pow x (Z.of_nat j).
Proof. rewrite Nat2Z.inj_succ. apply Zmod.pow_succ_nonneg_r. lia. Qed.

Lemma ssum_scaled (F : nat -> Scalar) (x : Scalar) l :
  ssum (map (fun j => x * F j) l) = x * ssum (map F l).
Proof.
  induction l as [|j l IH]; cbn [map ssum]; [ring|]. rewrite IH. ring.
Qed.

Lemma horner_power_sum coeffs x :
  horner coeffs x
  = ssum (map (fun j => nth j coeffs 0 * Zmod.pow x (Z.of_nat j))
              (seq 0 (length coeffs))).
Proof.
  induction coeffs as [|c coeffs IH]; cbn [horner length seq map ssum];
    [reflexivity|].
  rewrite <- seq_shift, map_map.
  rewrite (map_ext _ (fun j => x * (nth j coeffs 0 * Zmod.pow x (Z.of_nat j)))).
  2:{ intros j. cbn [nth]. rewrite pow_succ_nat. ring. }
  rewrite ssum_scaled, <- IH. cbn [nth]. rewrite Zmod.pow_0_r. ring.
Qed.

(** X3. [eval_scalar_poly] returns the sum of the coeffs[j] x^j over the
    indices of the list, and so zero for the empty list: the running power
    of the loop is x^j at step j. *)
Theorem eval_scalar_poly_power_sum (coeffs : list Scalar) (x : Scalar) :
  eval_scalar_poly coeffs x
  = ssum (map (fun j => nth j coeffs 0 * Zmod.pow x (Z.of_nat j))
              (seq 0 (length coeffs))).
Proof. rewrite eval_scalar_poly_horner. apply horner_power_sum. Qed.

Lemma Scalar_of_int_multiple k : Scalar_of_int (k * SIZE) = 0.
Proof.
  apply Zmod.unsigned_inj. unfold Scalar_of_int.
  rewrite Zmod.unsigned_of_Z, Zmod.unsigned_0. apply Z_mod_mult.
Qed.

Lemma horner_zero coeffs : horner coeffs 0 = hd 0 coeffs.
Proof. destruct coeffs as [|c coeffs]; cbn [horner hd]; ring. Qed.

(** X7. [modinv_scalar] is an involution wherever it returns: the inverse y
    of x is nonzero, x y = 1, and the inverse of y is x again. *)
Theorem modinv_scalar_round_trip (x y : Scalar) :
  modinv_scalar x = Ok y ->
  x * y = 1 /\ y <> 0 /\ modinv_scalar y = Ok x.
Proof.
  intros H.
  destruct (Zmod.eqb_spec x 0) as [->|Hx]; [discriminate H|].
  rewrite (modinv_scalar_nonzero x Hx) in H. injection H as <-.
  pose proof (Zmod.inv_nz_prime x SIZE_prime Hx) as Hy.
  split; [apply mul_inv_scalar; exact Hx|]. split; [exact Hy|].
  rewrite (modinv_scalar_nonzero _ Hy). f_equal.
  apply Zmod.inv_inv_prime. exact SIZE_prime.
Qed.

End PowerSums.

Section PointPolynomials.

Context {lib : CurveLib}.

Local Open Scope Zmod_scope.

Lemma gsum_scaled (F : nat -> GE) (x : Scalar) l :
  gsum (map (fun j => GE_mul x (F j)) l) = GE_mul x (gsum (map F l)).
Proof.
  induction l as [|j l IH]; cbn [map gsum].
  - rewrite GE_mul_infinity. reflexivity.
  - rewrite IH, GE_mul_add_r. reflexivity.
Qed.

Lemma point_horner_power_sum (E : list GE) x :
  point_horner E x
  = gsum (map (fun j => GE_mul (Zmod.pow x (Z.of_nat j)) (nth j E GE_infinity))
              (seq 0 (length E))).
Proof.
  induction E as [|A E IH]; cbn [point_horner length seq map gsum];
    [reflexivity|].
  rewrite <- seq_shift, map_map.
  rewrite (map_ext _ (fun j => GE_mul x (GE_mul (Zmod.pow x (Z.of_nat j))
                                           (nth j E GE_infinity)))).
  2:{ intros j. cbn [nth]. rewrite pow_succ_nat, GE_mul_mul. reflexivity. }
  rewrite gsum_scaled, <- IH. cbn [nth].
  rewrite Zmod.pow_0_r, GE_mul_1_l. reflexivity.
Qed.

(** X4. [eval_point_poly] returns the sum of the x^j A_j over the indices of
    the commitment list, and so the identity for the empty list. *)
Theorem eval_point_poly_power_sum (commitments : list GE) (x : Scalar) :
  eval_point_poly commitments x
  = gsum (map (fun j => GE_mul (Zmod.pow x (Z.of_nat j))
                               (nth j commitments GE_infinity))
              (seq 0 (length commitments))).
Proof. rewrite eval_point_poly_horner. apply point_horner_power_sum. Qed.

(** X5. On the commitments A_j = a_j G of a coefficient list the point
    polynomial is the commitment of the scalar polynomial:
    E(x) = f(x) G for every x. *)
Theorem eval_point_poly_of_commitments (coeffs : list Scalar) (x : Scalar) :
  eval_point_poly (map (fun a => GE_mul a G) coeffs) x
  = GE_mul (eval_scalar_poly coeffs x) G.
Proof.
  rewrite eval_point_poly_horner, eval_scalar_poly_horner.
  apply point_horner_commitments.
Qed.

Lemma point_horner_zero (E : list GE) :
  point_horner E 0 = hd GE_infinity E.
Proof.
  destruct E as [|A E]; cbn [point_horner hd]; [reflexivity|].
  rewrite GE_mul_0_l. apply GE_add_0_r.
Qed.

(** X6. At an id that is a multiple of the group order, zero included, both
    evaluations return the constant term: the secret a_0 for the scalar
    polynomial and A_0 for the commitments (zero and the identity for an
    empty list). *)
Theorem eval_at_multiple_of_order (k : Z) (coeffs : list Scalar)
    (commitments : list GE) :
  eval_scalar_poly coeffs (Scalar_of_int (k * SIZE)) = hd 0 coeffs
  /\ eval_point_poly commitments (Scalar_of_int (k * SIZE))
     = hd GE_infinity commitments.
Proof.
  rewrite Scalar_of_int_multiple. split.
  - rewrite eval_scalar_poly_horner. apply horner_zero.
  - rewrite eval_point_poly_horner. apply point_horner_zero.
Qed.

End PointPolynomials.

(** ** The dealer *)

Section DealerExtras.

Context {lib : CurveLib}.

Local Open Scope Zmod_scope.

Lemma random_scalar_nonzero_nonzero tp s rest :
  _random_scalar_nonzero tp = Some (s, rest) -> s <> 0.
Proof.
  induction tp as [|r tp IH]; cbn [_random_scalar_nonzero]; [discriminate|].
  cbv zeta. destruct (Zmod.eqb_spec (from_int_wrapping r) 0) as [|E];
    cbn [negb]; [exact IH|].
  intros [= <- _]. exact E.
Qed.

Lemma append_random_prefix k :
  forall coeffs tp coeffs' rest,
    append_random k coeffs tp = Some (coeffs', rest) ->
    exists more, coeffs' = coeffs ++ more /\ length more = k.
Proof.
  induction k as [|k IH]; intros coeffs tp coeffs' rest; cbn [append_random].
  - intros [= <- _]. exists []. rewrite app_nil_r. split; reflexivity.
  - destruct (_random_scalar tp) as [[a tp1]|]; [|discriminate].
    intros H. apply IH in H. destruct H as (more & -> & Hl).
    exists (a :: more). rewrite <- app_assoc. cbn [app length].
    split; [reflexivity|lia].
Qed.

(** A run with valid parameters deals the sampled coefficients. *)
Lemma keygen_sampled t n tp r :
  trusted_dealer_key_generation t n tp = Some r ->
  (1 <= t <= n)%Z ->
  exists a_0 more,
    a_0 <> 0 /\ length more = Z.to_nat (t - 1)
    /\ r = deal (a_0 :: more) n.
Proof.
  unfold trusted_dealer_key_generation. intros H Htn.
  destruct (Z.ltb_spec n 1) as [|_]; [lia|].
  destruct (Z.leb_spec 1 t) as [_|]; [|lia].
  destruct (Z.leb_spec t n) as [_|]; [|lia]. cbn [andb negb] in H.
  destruct (_random_scalar_nonzero tp) as [[a_0 tp1]|] eqn:E1; [|discriminate].
  destruct (append_random _ _ _) as [[coeffs tp2]|] eqn:E2; [|discriminate].
  injection H as <-.
  apply append_random_prefix in E2. destruct E2 as (more & -> & Hl).
  exists a_0, more. split; [exact (random_scalar_nonzero_nonzero _ _ _ E1)|].
  split; [rewrite Hl; apply length_range|reflexivity].
Qed.

(** X8. Whatever the parameters and the tape,
    [trusted_dealer_key_generation] raises neither AssertionError nor
    IndexError: the consistency assertion P_i == d_i G of the loop never
    fails and the commitment list is never empty. *)
Theorem keygen_no_internal_error (t n : Z) (tp : tape) :
  trusted_dealer_key_generation t n tp <> Some (Raise AssertionError)
  /\ trusted_dealer_key_generation t n tp <> Some (Raise IndexError).
Proof.
  assert (H : forall e, trusted_dealer_key_generation t n tp = Some (Raise e) ->
                        exists msg, e = ValueError msg).
  { intros e He.
    destruct (Z_lt_le_dec n 1) as [Hn|Hn].
    { unfold trusted_dealer_key_generation in He.
      rewrite (proj2 (Z.ltb_lt n 1) Hn) in He. injection He as <-.
      eexists; reflexivity. }
    destruct (Z_le_gt_dec 1 t) as [Ht|Ht];
      [destruct (Z_le_gt_dec t n) as [Htn|Htn]|].
    - destruct (keygen_sampled t n tp _ He ltac:(lia))
        as (a_0 & more & _ & _ & Hd).
      destruct (deal_outcome (a_0 :: more) n ltac:(discriminate))
        as [[x E]|(e' & E & K)]; rewrite E in Hd; [discriminate|].
      injection Hd as ->.
      destruct K as [[->| ->]|[->|[i ->]]]; eexists; reflexivity.
    - unfold trusted_dealer_key_generation in He.
      rewrite (proj2 (Z.ltb_ge n 1) Hn) in He.
      rewrite (proj2 (Z.leb_gt t n) ltac:(lia)), andb_false_r in He.
      injection He as <-. eexists; reflexivity.
    - unfold trusted_dealer_key_generation in He.
      rewrite (proj2 (Z.ltb_ge n 1) Hn) in He.
      rewrite (proj2 (Z.leb_gt 1 t) ltac:(lia)) in He.
      injection He as <-. eexists; reflexivity. }
  split; intros He; destruct (H _ He) as [msg E]; discriminate E.
Qed.

(** X9. A run that returns gives exactly t commitments A_j = a_j G; the
    first coefficient a_0 is nonzero and A_0 is not the identity. *)
Theorem keygen_commitments t n tp vss_commitment secret_shares public_shares :
  trusted_dealer_key_generation t n tp
  = Some (Ok (vss_commitment, secret_shares, public_shares)) ->
  length vss_commitment = Z.to_nat t
  /\ exists a_0 more,
       a_0 <> 0
       /\ vss_commitment = map (fun a => GE_mul a G) (a_0 :: more)
       /\ GE_mul a_0 G <> GE_infinity.
Proof.
  intros H. pose proof (proj1 (keygen_ok _ _ _ _ H)) as Htn.
  destruct (keygen_sampled t n tp _ H Htn) as (a_0 & more & Ha & Hl & Hd).
  symmetry in Hd. apply deal_ok in Hd. destruct Hd as (A_0 & tweak & g & D).
  pose proof (dealt_commitment _ _ _ _ _ _ _ _ D) as Hc.
  split.
  - rewrite Hc, length_map. cbn [length]. rewrite Hl. lia.
  - exists a_0, more. split; [exact Ha|]. split; [exact Hc|].
    pose proof (dealt_head _ _ _ _ _ _ _ _ D) as Hh.
    rewrite Hc in Hh. cbn [map hd_error] in Hh. injection Hh as Hh.
    rewrite Hh. exact (dealt_A_0 _ _ _ _ _ _ _ _ D).
Qed.

End DealerExtras.

Section DealerOutcome.

Context {lib : CurveLib}.

Local Open Scope Zmod_scope.

Lemma map_seq_from lo s len :
  map (fun k => (lo + Z.of_nat k)%Z) (seq s len)
  = map (fun k => (lo + Z.of_nat s + Z.of_nat k)%Z) (seq 0 len).
Proof.
  revert s. induction len as [|len IH]; intros s; cbn [seq map]; [reflexivity|].
  f_equal; [lia|].
  rewrite IH, <- seq_shift, map_map. apply map_ext. intros k. lia.
Qed.

Lemma range_split lo i hi :
  (lo <= i < hi)%Z -> range lo hi = range lo i ++ i :: range (i + 1) hi.
Proof.
  intros H. unfold range.
  replace (Z.to_nat (hi - lo))
    with (Z.to_nat (i - lo) + S (Z.to_nat (hi - (i + 1))))%nat by lia.
  rewrite seq_app, map_app. cbn [seq map Nat.add]. f_equal.
  f_equal; [lia|].
  rewrite map_seq_from. apply map_ext. intros k. lia.
Qed.

Lemma share_loop_all_nonzero coeffs tweak g ids :
  Forall (fun i => tweaked_secret_share coeffs tweak g i <> 0) ids ->
  forall secret_shares public_shares,
    share_loop coeffs (map (fun a => GE_mul a G) coeffs) tweak g ids
      secret_shares public_shares
    = Ok (secret_shares ++ map (tweaked_secret_share coeffs tweak g) ids,
          public_shares
          ++ map (tweaked_public_share (map (fun a => GE_mul a G) coeffs)
                    tweak g) ids).
Proof.
  induction ids as [|i ids IH]; intros HF secret_shares public_shares;
    cbn [share_loop map].
  - rewrite !app_nil_r. reflexivity.
  - inversion HF as [|? ? Hi HF']; subst. cbv zeta.
    fold (tweaked_secret_share coeffs tweak g i).
    fold (tweaked_public_share (map (fun a => GE_mul a G) coeffs) tweak g i).
    destruct (Zmod.eqb_spec (tweaked_secret_share coeffs tweak g i) 0)
      as [|_]; [contradiction|].
    rewrite (proj2 (GE_eqb_eq _ _) (dealer_assertion_holds coeffs tweak g i)).
    cbn [negb]. rewrite (IH HF'), <- !app_assoc. reflexivity.
Qed.

Lemma share_loop_first_zero coeffs tweak g before i after :
  Forall (fun j => tweaked_secret_share coeffs tweak g j <> 0) before ->
  tweaked_secret_share coeffs tweak g i = 0 ->
  forall secret_shares public_shares,
    share_loop coeffs (map (fun a => GE_mul a G) coeffs) tweak g
      (before ++ i :: after) secret_shares public_shares
    = Raise (ValueError (zero_share_message i)).
Proof.
  intros HF Hz. induction before as [|j before IH];
    intros secret_shares public_shares; cbn [share_loop app]; cbv zeta.
  - fold (tweaked_secret_share coeffs tweak g i). rewrite Hz.
    rewrite (proj2 (Zmod.eqb_eq _ _) eq_refl). reflexivity.
  - inversion HF as [|? ? Hj HF']; subst.
    fold (tweaked_secret_share coeffs tweak g j).
    fold (tweaked_public_share (map (fun a => GE_mul a G) coeffs) tweak g j).
    destruct (Zmod.eqb_spec (tweaked_secret_share coeffs tweak g j) 0)
      as [|_]; [contradiction|].
    rewrite (proj2 (GE_eqb_eq _ _) (dealer_assertion_holds coeffs tweak g j)).
    cbn [negb]. apply (IH HF').
Qed.

(** With valid parameters, a first draw that is nonzero modulo the order and
    t - 1 further draws, the run deals the draws reduced modulo the
    order. *)
Lemma keygen_deals_draws t n r_0 tp :
  (1 <= t <= n)%Z -> (r_0 mod SIZE <> 0)%Z ->
  (Z.to_nat (t - 1) <= length tp)%nat ->
  trusted_dealer_key_generation t n (r_0 :: tp)
  = Some (deal (map from_int_wrapping (r_0 :: firstn (Z.to_nat (t - 1)) tp)) n).
Proof.
  intros Htn Hr Hlen. unfold trusted_dealer_key_generation.
  destruct (Z.ltb_spec n 1) as [|_]; [lia|].
  destruct (Z.leb_spec 1 t) as [_|]; [|lia].
  destruct (Z.leb_spec t n) as [_|]; [|lia]. cbn [andb negb].
  cbn [_random_scalar_nonzero]. cbv zeta.
  destruct (Zmod.eqb_spec (from_int_wrapping r_0) 0) as [E|_]; cbn [negb].
  { apply from_int_wrapping_zero_iff in E. contradiction. }
  rewrite length_range, append_random_draws by exact Hlen. reflexivity.
Qed.

(** X10. In a run with valid parameters whose draws give the coefficients
    [coeffs], the tweak (tweak, g) and a non-identity group key, the loop
    over the ids 1..n is all or nothing: when no tweaked share
    g f(i) + tweak is zero the run returns the commitments and the shares of
    all ids in order, and when some share is zero the run aborts with the
    ZeroShare message of the least such id, returning nothing. *)
Theorem keygen_all_or_nothing t n r_0 tp coeffs tweak g :
  (1 <= t <= n)%Z -> (r_0 mod SIZE <> 0)%Z ->
  (Z.to_nat (t - 1) <= length tp)%nat ->
  coeffs = map from_int_wrapping (r_0 :: firstn (Z.to_nat (t - 1)) tp) ->
  _taproot_tweak_and_sign (GE_mul (from_int_wrapping r_0) G) = Ok (tweak, g) ->
  GE_add (int_mul g (GE_mul (from_int_wrapping r_0) G)) (GE_mul tweak G)
  <> GE_infinity ->
  ((forall i, (1 <= i <= n)%Z -> tweaked_secret_share coeffs tweak g i <> 0) ->
   trusted_dealer_key_generation t n (r_0 :: tp)
   = Some (Ok (map (fun a => GE_mul a G) coeffs,
               map (tweaked_secret_share coeffs tweak g) (range 1 (n + 1)),
               map (tweaked_public_share (map (fun a => GE_mul a G) coeffs)
                      tweak g) (range 1 (n + 1)))))
  /\ (forall i,
        (1 <= i <= n)%Z -> tweaked_secret_share coeffs tweak g i = 0 ->
        (forall j, (1 <= j < i)%Z ->
           tweaked_secret_share coeffs tweak g j <> 0) ->
        trusted_dealer_key_generation t n (r_0 :: tp)
        = Some (Raise (ValueError (zero_share_message i)))).
Proof.
  intros Htn Hr Hlen Hc Ht HQ.
  rewrite (keygen_deals_draws t n r_0 tp Htn Hr Hlen), <- Hc.
  assert (Hd : forall r,
    share_loop coeffs (map (fun a => GE_mul a G) coeffs) tweak g
      (range 1 (n + 1)) [] [] = r ->
    deal coeffs n
    = ('(secret_shares, public_shares) <- r ;;
       Ok (map (fun a => GE_mul a G) coeffs, secret_shares, public_shares))).
  { intros r <-. unfold deal. rewrite Hc at 1 2. cbn [map].
    destruct (is_infinity (GE_mul (from_int_wrapping r_0) G)) eqn:HA.
    { apply is_infinity_true_iff in HA. rewrite HA in Ht.
      rewrite tweak_and_sign_infinity in Ht. discriminate Ht. }
    rewrite Ht. cbn [bind].
    rewrite (proj2 (is_infinity_false_iff _) HQ).
    rewrite Hc. reflexivity. }
  split.
  - intros Hall. rewrite (Hd _ eq_refl).
    rewrite share_loop_all_nonzero; [reflexivity|].
    apply Forall_forall. intros i Hi. apply In_range in Hi. apply Hall. lia.
  - intros i Hi Hz Hbefore. rewrite (Hd _ eq_refl).
    rewrite (range_split 1 i (n + 1)) by lia.
    rewrite share_loop_first_zero; [reflexivity| |exact Hz].
    apply Forall_forall. intros j Hj. apply In_range in Hj. apply Hbefore. lia.
Qed.

End DealerOutcome.

(** ** Interpolation of scalars and of points *)

Section Interpolation.

Context {lib : CurveLib}.

Local Open Scope Zmod_scope.

Lemma lagrange_sum_horner ids f :
  NoDup ids -> ~ congruent_ids ids -> (length f <= length ids)%nat ->
  ssum (map (fun i => lagrange_coefficient ids i * horner f (Scalar_of_int i))
            ids)
  = horner f 0.
Proof.
  intros ND HC HL.
  rewrite <- (lagrange_interpolation (map Scalar_of_int ids))
    by (rewrite ?length_map; auto using NoDup_scalars).
  rewrite map_map. f_equal. apply map_ext_in. intros i Hi.
  rewrite lagrange_coefficient_lam; [reflexivity|].
  intros j Hj E. exact (not_congruent_inj ids HC i j Hi Hj E).
Qed.

Lemma lagrange_at_zero_coefficient ids i :
  NoDup ids -> ~ congruent_ids ids -> In i ids ->
  lagrange_at_zero ids i = Ok (lagrange_coefficient ids i).
Proof.
  intros ND HC Hi. apply lagrange_at_zero_returns; [exact Hi|exact ND|].
  intros Hz. apply HC. apply congruent_ids_iff. apply Exists_exists.
  exists i. split; assumption.
Qed.

(** X11. The coefficients of [lagrange_at_zero] recover the constant term:
    for distinct ids, no two of them congruent modulo the group order, and a
    polynomial with at most as many coefficients as there are ids, every
    coefficient lam_i is returned and the sum of the lam_i f(i), with f(i)
    computed by [eval_scalar_poly], is f(0), the first coefficient. *)
Theorem lagrange_recovers_constant_term (ids : list Z) (coeffs : list Scalar) :
  NoDup ids -> ~ congruent_ids ids -> (length coeffs <= length ids)%nat ->
  (forall i, In i ids ->
     lagrange_at_zero ids i = Ok (lagrange_coefficient ids i))
  /\ ssum (map (fun i => lagrange_coefficient ids i
                         * eval_scalar_poly coeffs (Scalar_of_int i)) ids)
     = hd 0 coeffs.
Proof.
  intros ND HC HL. split.
  - intros i Hi. apply lagrange_at_zero_coefficient; assumption.
  - rewrite <- horner_zero, <- (lagrange_sum_horner ids coeffs ND HC HL).
    f_equal. apply map_ext. intros i. rewrite eval_scalar_poly_horner.
    reflexivity.
Qed.

Lemma horner_scaled s f x : horner (map (Zmod.mul s) f) x = s * horner f x.
Proof.
  induction f as [|c f IH]; cbn [map horner]; [ring|]. rewrite IH. ring.
Qed.

(** The tweaked share is the value of the tweaked polynomial
    g f(X) + tweak. *)
Lemma tweaked_secret_share_horner a_0 more tweak g i :
  tweaked_secret_share (a_0 :: more) tweak g i
  = horner ((Scalar_of_int g * a_0 + tweak)
            :: map (Zmod.mul (Scalar_of_int g)) more) (Scalar_of_int i).
Proof.
  unfold tweaked_secret_share. rewrite eval_scalar_poly_horner.
  cbn [horner]. rewrite horner_scaled. ring.
Qed.

(** X12. The secret shares of a run interpolate to the discrete logarithm of
    the group key: after a successful run with n below the group order there
    is a scalar d with [group_pubkey_from_commitment] returning d G, and for
    every set of at least t distinct ids among 1..n the sum of the
    lam_i * secret_shares[i - 1], with the lam_i of [lagrange_at_zero], is
    d. *)
Theorem keygen_secret_reconstruction t n tp vss_commitment secret_shares
    public_shares :
  trusted_dealer_key_generation t n tp
  = Some (Ok (vss_commitment, secret_shares, public_shares)) ->
  (n < SIZE)%Z ->
  exists d,
    group_pubkey_from_commitment vss_commitment = Ok (GE_mul d G)
    /\ forall ids,
         NoDup ids -> (forall i, In i ids -> (1 <= i <= n)%Z) ->
         (Z.to_nat t <= length ids)%nat ->
         (forall i, In i ids ->
            lagrange_at_zero ids i = Ok (lagrange_coefficient ids i))
         /\ ssum (map (fun i => lagrange_coefficient ids i
                                * nth (Z.to_nat (i - 1)) secret_shares 0) ids)
            = d.
Proof.
  intros H Hn. apply keygen_group_key in H.
  destruct H as (coeffs & A_0 & tweak & g & Hl & D & Hgk).
  pose proof (dealt_commitment _ _ _ _ _ _ _ _ D) as Hc.
  pose proof (dealt_head _ _ _ _ _ _ _ _ D) as Hh.
  destruct coeffs as [|a_0 more]; [rewrite Hc in Hh; discriminate Hh|].
  rewrite Hc in Hh. cbn [map hd_error] in Hh. injection Hh as <-.
  exists (Scalar_of_int g * a_0 + tweak). split.
  - rewrite Hgk. unfold int_mul.
    rewrite GE_mul_mul, <- GE_mul_add_l. reflexivity.
  - intros ids ND Hids Ht.
    pose proof (small_ids_not_congruent ids n Hn Hids) as HC. split.
    + intros i Hi. apply lagrange_at_zero_coefficient; assumption.
    + transitivity
        (ssum (map (fun i =>
                      lagrange_coefficient ids i
                      * horner ((Scalar_of_int g * a_0 + tweak)
                                :: map (Zmod.mul (Scalar_of_int g)) more)
                               (Scalar_of_int i)) ids)).
      * f_equal. apply map_ext_in. intros i Hi. f_equal.
        destruct (dealt_nth _ _ _ _ _ _ _ _ i D (Hids i Hi)) as (Hs & _).
        rewrite (nth_error_nth _ _ _ Hs).
        apply tweaked_secret_share_horner.
      * rewrite lagrange_sum_horner; [apply horner_zero|exact ND|exact HC|].
        cbn [length] in *. rewrite length_map. lia.
Qed.

(** X13. Interpolating the values of a point polynomial returns its constant
    term: for distinct ids, no two congruent modulo the group order, and at
    most as many commitments as ids, [group_pub_from_tweaked_pubshares] on
    the values that [eval_point_poly] gives at the ids returns the first
    commitment, and raises "Interpolation yielded infinity" when that is the
    identity (or the list is empty). *)
Theorem group_pub_of_evaluations (ids : list Z) (commitments : list GE) :
  ids <> [] -> NoDup ids -> ~ congruent_ids ids ->
  (length commitments <= length ids)%nat ->
  group_pub_from_tweaked_pubshares ids
    (map (fun i => eval_point_poly commitments (Scalar_of_int i)) ids)
  = if is_infinity (hd GE_infinity commitments)
    then Raise (ValueError "Interpolation yielded infinity")
    else Ok (hd GE_infinity commitments).
Proof.
  intros Hne ND HC HL.
  rewrite group_pub_interpolates
    by (rewrite ?length_map; auto).
  replace (map (fun i => eval_point_poly commitments (Scalar_of_int i)) ids)
    with (map (fun i => point_horner commitments (Scalar_of_int i)) ids)
    by (apply map_ext; intros i; symmetry; apply eval_point_poly_horner).
  rewrite interpolated_sum_evaluations by assumption. reflexivity.
Qed.

End Interpolation.

(** ** Share verification *)

Section Verification.

Context {lib : CurveLib}.

Local Open Scope Zmod_scope.

Lemma GE_mul_cancel (a b : Scalar) (P : GE) :
  GE_mul a P = GE_mul b P -> GE_mul (a - b) P = GE_infinity.
Proof.
  intros E. replace (a - b) with (a + (- b)) by ring.
  rewrite GE_mul_add_l, E, <- GE_mul_add_l.
  replace (b + - b) with (@Zmod.zero SIZE) by ring. apply GE_mul_0_l.
Qed.

(** What [verify_share] computes once its guards are passed. *)
Lemma verify_share_body i s P rest tweak g :
  (0 < i)%Z -> P <> GE_infinity ->
  _taproot_tweak_and_sign P = Ok (tweak, g) ->
  verify_share i s (P :: rest)
  = Ok (negb (Zmod.eqb s 0)
        && GE_eqb (tweaked_public_share (P :: rest) tweak g i) (GE_mul s G)).
Proof.
  intros Hi HP Ht. unfold verify_share.
  destruct (Zmod.eqb s Zmod.zero); [reflexivity|]. cbn [negb andb].
  destruct (Z.leb_spec i 0) as [|_]; [lia|].
  rewrite (proj2 (is_infinity_false_iff P) HP), Ht. reflexivity.
Qed.

(** Acceptance shows that the guards were passed. *)
Lemma verify_share_accepts i s vss_commitment :
  verify_share i s vss_commitment = Ok true ->
  s <> 0 /\ (0 < i)%Z
  /\ exists P rest tweak g,
       vss_commitment = P :: rest /\ P <> GE_infinity
       /\ _taproot_tweak_and_sign P = Ok (tweak, g)
       /\ tweaked_public_share (P :: rest) tweak g i = GE_mul s G.
Proof.
  unfold verify_share.
  destruct (Zmod.eqb_spec s Zmod.zero) as [|Hs]; [discriminate|].
  destruct (Z.leb_spec i 0) as [|Hi]; [discriminate|].
  destruct vss_commitment as [|P rest]; [discriminate|].
  destruct (is_infinity P) eqn:HP; [discriminate|].
  destruct (_taproot_tweak_and_sign P) as [[tweak g]|e] eqn:Ht;
    [|discriminate]. cbn [bind]. intros H. injection H as H.
  apply GE_eqb_eq in H. split; [exact Hs|]. split; [exact Hi|].
  exists P, rest, tweak, g. repeat split; try assumption.
  apply is_infinity_false_iff. exact HP.
Qed.

(** X14. At most one share verifies: when the generator has the order of the
    scalar field (no nonzero multiple of G is the identity) and
    [verify_share] accepts the share s for an id and a commitment list, then
    on the same id and list it returns, for every share s', whether s' is
    s. *)
Theorem verify_share_accepts_one_share (i : Z) (s s' : Scalar)
    (vss_commitment : list GE) :
  (forall a, GE_mul a G = GE_infinity -> a = 0) ->
  verify_share i s vss_commitment = Ok true ->
  verify_share i s' vss_commitment = Ok (Zmod.eqb s' s).
Proof.
  intros HG H. apply verify_share_accepts in H.
  destruct H as (Hs & Hi & P & rest & tweak & g & -> & HP & Ht & He).
  rewrite (verify_share_body i s' P rest tweak g Hi HP Ht), He. f_equal.
  destruct (Zmod.eqb_spec s' s) as [->|Hne].
  - destruct (Zmod.eqb_spec s 0) as [|_]; [contradiction|]. cbn [negb andb].
    apply GE_eqb_eq. reflexivity.
  - destruct (GE_eqb (GE_mul s G) (GE_mul s' G)) eqn:E;
      [|apply andb_false_r].
    apply GE_eqb_eq in E. apply GE_mul_cancel, HG in E.
    exfalso. apply Hne. replace s' with (s - (s - s')) by ring.
    rewrite E. ring.
Qed.

(** X15. [verify_share] sees a positive id only modulo the group order: two
    positive ids with the same remainder get the same answer for every share
    and commitment list. *)
Theorem verify_share_id_modulo_order (i j : Z) (s : Scalar)
    (vss_commitment : list GE) :
  (0 < i)%Z -> (0 < j)%Z -> (i mod SIZE = j mod SIZE)%Z ->
  verify_share i s vss_commitment = verify_share j s vss_commitment.
Proof.
  intros Hi Hj E. apply Scalar_of_int_eq_iff in E. unfold verify_share.
  destruct (Z.leb_spec i 0) as [|_]; [lia|].
  destruct (Z.leb_spec j 0) as [|_]; [lia|].
  rewrite E. reflexivity.
Qed.

(** X16. After a successful run [verify_share] is the comparison with the
    dealer's public share: for an id i in 1..n and any share s it returns
    whether s is nonzero and s G is public_shares[i - 1]. *)
Theorem keygen_verify_is_public_share_check t n tp vss_commitment
    secret_shares public_shares (i : Z) (s : Scalar) :
  trusted_dealer_key_generation t n tp
  = Some (Ok (vss_commitment, secret_shares, public_shares)) ->
  (1 <= i <= n)%Z ->
  verify_share i s vss_commitment
  = Ok (negb (Zmod.eqb s 0)
        && GE_eqb (nth (Z.to_nat (i - 1)) public_shares GE_infinity)
                  (GE_mul s G)).
Proof.
  intros H Hi. apply keygen_dealt in H.
  destruct H as (_ & coeffs & A_0 & tweak & g & _ & D).
  destruct (dealt_nth _ _ _ _ _ _ _ _ i D Hi) as (_ & Hp & _).
  rewrite (nth_error_nth _ _ _ Hp).
  pose proof (dealt_head _ _ _ _ _ _ _ _ D) as Hh.
  destruct vss_commitment as [|P rest]; [discriminate Hh|].
  cbn [hd_error] in Hh. injection Hh as ->.
  apply verify_share_body;
    [lia|exact (dealt_A_0 _ _ _ _ _ _ _ _ D)
        |exact (dealt_tweak _ _ _ _ _ _ _ _ D)].
Qed.

End Verification.

(** ** Order of the shares *)

Section ShareOrder.

Context {lib : CurveLib}.

Local Open Scope Zmod_scope.

Lemma sprod_permutation l l' : Permutation l l' -> sprod l = sprod l'.
Proof.
  induction 1 as [|x l l' _ IH|x y l|l l' l'' _ IH1 _ IH2]; cbn [sprod].
  - reflexivity.
  - rewrite IH. reflexivity.
  - ring.
  - congruence.
Qed.

Lemma gsum_permutation (l l' : list GE) :
  Permutation l l' -> gsum l = gsum l'.
Proof.
  induction 1 as [|x l l' _ IH|x y l|l l' l'' _ IH1 _ IH2]; cbn [gsum].
  - reflexivity.
  - rewrite IH. reflexivity.
  - rewrite !GE_add_assoc, (GE_add_comm y x). reflexivity.
  - congruence.
Qed.

Lemma filter_permutation {A} (f : A -> bool) l l' :
  Permutation l l' -> Permutation (filter f l) (filter f l').
Proof.
  induction 1 as [|x l l' _ IH|x y l|l l' l'' _ IH1 _ IH2]; cbn [filter].
  - constructor.
  - destruct (f x); [constructor|]; exact IH.
  - destruct (f x), (f y); try apply Permutation_refl. constructor.
  - eapply Permutation_trans; eassumption.
Qed.

Lemma lagrange_coefficient_permutation ids ids' i :
  Permutation ids ids' ->
  lagrange_coefficient ids i = lagrange_coefficient ids' i.
Proof.
  intros HP. unfold lagrange_coefficient, lagrange_num, lagrange_denom.
  pose proof (filter_permutation (fun j => negb (j =? i)%Z) _ _ HP) as HF.
  fold (other_ids ids i) in HF. fold (other_ids ids' i) in HF.
  rewrite (sprod_permutation _ _ (Permutation_map Scalar_of_int HF)).
  rewrite (sprod_permutation _ _
             (Permutation_map
                (fun j => Scalar_of_int j - Scalar_of_int i) HF)).
  reflexivity.
Qed.

Lemma congruent_ids_permutation ids ids' :
  Permutation ids ids' -> congruent_ids ids -> congruent_ids ids'.
Proof.
  intros HP (i & j & Hi & Hj & Hne & E). exists i, j.
  repeat split; try assumption; eapply Permutation_in; eassumption.
Qed.

Lemma map_fst_combine_ids (ids : list Z) (pubshares : list GE) :
  length ids = length pubshares -> map fst (combine ids pubshares) = ids.
Proof.
  revert pubshares. induction ids as [|i ids IH]; intros [|P pubshares] HL;
    try discriminate HL; cbn [combine map fst]; [reflexivity|].
  rewrite IH by (cbn [length] in HL; lia). reflexivity.
Qed.

Lemma group_pub_duplicates ids pubshares :
  length ids = length pubshares -> ids <> [] -> ~ NoDup ids ->
  group_pub_from_tweaked_pubshares ids pubshares
  = Raise (ValueError "duplicate ids not allowed").
Proof.
  intros HL Hne ND. unfold group_pub_from_tweaked_pubshares.
  rewrite (proj2 (Nat.eqb_eq _ _) HL). cbn [negb].
  destruct ids as [|i0 ids0] eqn:Hids; [congruence|]. rewrite <- Hids in *.
  replace (Nat.eqb (length ids) 0) with false by (rewrite Hids; reflexivity).
  destruct (Nat.eqb (len_set ids) (length ids)) eqn:E; [|reflexivity].
  apply len_set_NoDup in E. contradiction.
Qed.

(** X17. The order of the shares does not matter: two calls of
    [group_pub_from_tweaked_pubshares] whose (id, public share) pairs are a
    permutation of one another give the same outcome, the same key or the
    same error. *)
Theorem group_pub_order_independent (ids ids' : list Z)
    (pubshares pubshares' : list GE) :
  length ids = length pubshares -> length ids' = length pubshares' ->
  Permutation (combine ids pubshares) (combine ids' pubshares') ->
  group_pub_from_tweaked_pubshares ids pubshares
  = group_pub_from_tweaked_pubshares ids' pubshares'.
Proof.
  intros HL HL' HP.
  assert (Hids : Permutation ids ids').
  { rewrite <- (map_fst_combine_ids ids pubshares HL),
      <- (map_fst_combine_ids ids' pubshares' HL').
    apply Permutation_map. exact HP. }
  destruct ids as [|i0 ids0] eqn:Ei.
  { apply Permutation_nil in Hids. subst ids'.
    destruct pubshares; [|discriminate HL].
    destruct pubshares'; [|discriminate HL']. reflexivity. }
  rewrite <- Ei in *.
  assert (Hne : ids <> []) by (rewrite Ei; discriminate).
  assert (Hne' : ids' <> []).
  { intros ->. apply Permutation_sym, Permutation_nil in Hids.
    contradiction. }
  destruct (ListDec.NoDup_dec Z.eq_dec ids) as [ND|ND].
  - pose proof (Permutation_NoDup Hids ND) as ND'.
    destruct (congruent_ids_dec ids) as [HC|HC].
    + rewrite !group_pub_congruent;
        eauto using congruent_ids_permutation.
    + assert (HC' : ~ congruent_ids ids').
      { intros C. apply HC.
        exact (congruent_ids_permutation _ _ (Permutation_sym Hids) C). }
      rewrite !group_pub_interpolates by assumption.
      replace (interpolated_sum ids' pubshares')
        with (interpolated_sum ids pubshares); [reflexivity|].
      unfold interpolated_sum.
      rewrite (gsum_permutation _ _
                 (Permutation_map
                    (fun p => GE_mul (lagrange_coefficient ids (fst p))
                                     (snd p)) HP)).
      f_equal. apply map_ext. intros p.
      rewrite (lagrange_coefficient_permutation ids ids' (fst p) Hids).
      reflexivity.
  - assert (ND' : ~ NoDup ids').
    { intros N. apply ND. exact (Permutation_NoDup (Permutation_sym Hids) N). }
    rewrite !group_pub_duplicates by assumption. reflexivity.
Qed.

End ShareOrder.

(** ** Edge cases of the ids and of the dealer *)

Section EdgeCases.

Context {lib : CurveLib}.

Local Open Scope Zmod_scope.

(** X18. An id that is zero modulo the group order takes the whole weight:
    among distinct, pairwise incongruent ids containing such an id z,
    [lagrange_at_zero] returns 1 for z and 0 for every other id, so an
    interpolation over these ids returns the share of z alone. *)
Theorem lagrange_at_zero_with_zero_id (ids : list Z) (z : Z) :
  NoDup ids -> ~ congruent_ids ids -> In z ids -> (z mod SIZE = 0)%Z ->
  lagrange_at_zero ids z = Ok 1
  /\ forall i, In i ids -> i <> z -> lagrange_at_zero ids i = Ok 0.
Proof.
  intros ND HC Hz Hm.
  assert (Ez : Scalar_of_int z = 0).
  { change (@Zmod.zero SIZE) with (Scalar_of_int 0).
    apply Scalar_of_int_eq_iff. rewrite Hm. reflexivity. }
  split.
  - rewrite (lagrange_at_zero_coefficient ids z ND HC Hz). f_equal.
    assert (Hd : lagrange_denom ids z <> 0).
    { intros E. apply HC. apply congruent_ids_iff. apply Exists_exists.
      exists z. split; assumption. }
    assert (En : lagrange_num ids z = lagrange_denom ids z).
    { unfold lagrange_num, lagrange_denom. f_equal. apply map_ext.
      intros j. rewrite Ez. ring. }
    unfold lagrange_coefficient, Zmod.mdiv. rewrite En.
    apply mul_inv_scalar. exact Hd.
  - intros i Hi Hne. rewrite (lagrange_at_zero_coefficient ids i ND HC Hi).
    f_equal. unfold lagrange_coefficient, Zmod.mdiv.
    replace (lagrange_num ids i) with (@Zmod.zero SIZE); [ring|].
    symmetry. unfold lagrange_num. apply sprod_has_zero.
    rewrite <- Ez. apply in_map. unfold other_ids. apply filter_In.
    split; [exact Hz|]. destruct (Z.eqb_spec z i) as [->|_];
      [contradiction|reflexivity].
Qed.

Lemma firstn_seq_min m : forall s k, firstn m (seq s k) = seq s (Nat.min m k).
Proof.
  induction m as [|m IH]; intros s [|k]; cbn [firstn seq Nat.min];
    try reflexivity.
  rewrite IH. reflexivity.
Qed.

Lemma bounded_ids_not_congruent ids :
  (forall i, In i ids -> (0 <= i < SIZE)%Z) -> ~ congruent_ids ids.
Proof.
  intros Hids (i & j & Hi & Hj & Hne & E).
  apply Hids in Hi, Hj. rewrite !Z.mod_small in E by lia. congruence.
Qed.

Lemma range_firstn lo m hi :
  (lo <= m <= hi)%Z -> firstn (Z.to_nat (m - lo)) (range lo hi) = range lo m.
Proof.
  intros H. unfold range. rewrite firstn_map, firstn_seq_min.
  f_equal. f_equal. lia.
Qed.

Lemma deal_fewer coeffs n n' vss_commitment secret_shares public_shares :
  deal coeffs n = Ok (vss_commitment, secret_shares, public_shares) ->
  (0 <= n' <= n)%Z ->
  deal coeffs n'
  = Ok (vss_commitment, firstn (Z.to_nat n') secret_shares,
        firstn (Z.to_nat n') public_shares).
Proof.
  intros H Hn. apply deal_ok in H. destruct H as (A_0 & tweak & g & D).
  destruct D as [Hc Hh HA Ht HQ Hs Hp Hch]. subst secret_shares public_shares.
  unfold deal. rewrite <- Hc.
  destruct vss_commitment as [|P rest]; [discriminate Hh|].
  cbn [hd_error] in Hh. injection Hh as ->.
  rewrite (proj2 (is_infinity_false_iff _) HA), Ht. cbn [bind].
  rewrite (proj2 (is_infinity_false_iff _) HQ).
  rewrite Hc in *. rewrite share_loop_all_nonzero.
  - cbn [bind app]. rewrite !firstn_map.
    replace (Z.to_nat n') with (Z.to_nat (n' + 1 - 1)) by lia.
    rewrite range_firstn by lia. reflexivity.
  - apply Forall_forall. intros i Hi.
    apply (proj1 (Forall_forall _ _) Hch). apply In_range in Hi.
    apply In_range. lia.
Qed.

(** X19. The shares of the first participants do not depend on n: when a
    run for n participants returns, the run with the same threshold and the
    same draws for any n' with t <= n' <= n returns the same commitments
    and the first n' secret and public shares. *)
Theorem keygen_fewer_participants t n n' tp vss_commitment secret_shares
    public_shares :
  trusted_dealer_key_generation t n tp
  = Some (Ok (vss_commitment, secret_shares, public_shares)) ->
  (t <= n' <= n)%Z ->
  trusted_dealer_key_generation t n' tp
  = Some (Ok (vss_commitment, firstn (Z.to_nat n') secret_shares,
              firstn (Z.to_nat n') public_shares)).
Proof.
  unfold trusted_dealer_key_generation. intros H Hn.
  destruct (Z.ltb_spec n 1) as [|_]; [discriminate H|].
  destruct (Z.leb_spec 1 t) as [Ht|]; [|discriminate H].
  destruct (Z.leb_spec t n) as [_|]; [|discriminate H].
  cbn [andb negb] in H.
  destruct (Z.ltb_spec n' 1) as [|_]; [lia|].
  destruct (Z.leb_spec t n') as [_|]; [|lia]. cbn [andb negb].
  destruct (_random_scalar_nonzero tp) as [[a_0 tp1]|]; [|discriminate H].
  destruct (append_random _ _ _) as [[coeffs tp2]|]; [|discriminate H].
  injection H as H. f_equal. apply (deal_fewer coeffs n); [exact H|lia].
Qed.

Lemma zero_share_message_not_commitment i :
  ValueError (zero_share_message i)
  <> ValueError "Invalid polynomial: A_0 is infinity".
Proof.
  unfold zero_share_message. cbn [append]. discriminate.
Qed.

(** X20. The dealer's check of A_0 cannot fire when the generator has the
    order of the scalar field (no nonzero multiple of G is the identity, as
    on the curve): a_0 is sampled nonzero, so no run ends with "Invalid
    polynomial: A_0 is infinity". *)
Theorem keygen_commitment_check_never_fires (t n : Z) (tp : tape) :
  (forall a, GE_mul a G = GE_infinity -> a = 0) ->
  trusted_dealer_key_generation t n tp
  <> Some (Raise (ValueError "Invalid polynomial: A_0 is infinity")).
Proof.
  intros HG H. pose proof H as H0. unfold trusted_dealer_key_generation in H.
  destruct (Z.ltb_spec n 1) as [|_]; [discriminate H|].
  destruct (Z.leb_spec 1 t) as [Ht|]; [|discriminate H].
  destruct (Z.leb_spec t n) as [Hn|]; [|discriminate H]. clear H.
  apply keygen_sampled in H0; [|lia].
  destruct H0 as (a_0 & more & Ha & _ & H). revert H. unfold deal.
  destruct (map (fun a => GE_mul a G) (a_0 :: more)) as [|P rest] eqn:Hc;
    [discriminate|].
  assert (HP : P <> GE_infinity).
  { cbn [map] in Hc. injection Hc as <- _. intros E. exact (Ha (HG _ E)). }
  rewrite (proj2 (is_infinity_false_iff _) HP).
  rewrite (tweak_and_sign_ok _ HP). cbn [bind].
  destruct (is_infinity _); [discriminate|]. rewrite <- Hc.
  match goal with
  | |- context [share_loop ?c _ ?tw ?g ?ids [] []] =>
      destruct (share_loop_outcome c tw g ids [] []) as [[[ss ps] E]|[i E]]
  end; rewrite E; cbn [bind]; [discriminate|].
  intros E'. apply (zero_share_message_not_commitment i). congruence.
Qed.

End EdgeCases.

(** ** Concrete runs of the further properties

    On the curve library [DlogModel.lib], mostly on the dealer's run with
    t = 2, n = 3 and the draws 4 and 5. *)

Module ExtraRuns.

Import DlogModel.

Local Open Scope Zmod_scope.

Ltac distinct_ids :=
  repeat constructor; cbn [In]; intros H; repeat destruct H as [H|H];
  try discriminate H; exact H.

Ltac scalar_differs :=
  let H := fresh in
  intros H; apply (f_equal Zmod.to_Z) in H; vm_compute in H; discriminate H.

Lemma dlog_generator_order :
  forall a, @GE_mul lib a (@G lib) = @GE_infinity lib -> a = 0.
Proof.
  intros a H. rewrite <- (Zmod.mul_1_r a). exact H.
Defined.

Lemma ids_1_2_3_not_congruent : ~ congruent_ids [1; 2; 3]%Z.
Proof.
  apply bounded_ids_not_congruent. cbn [In].
  intros i [<-|[<-|[<-|[]]]]; split; reflexivity || discriminate.
Defined.

Lemma random_scalar_nonzero_spec_witness :
  _random_scalar_nonzero [0; SIZE; 7; 9]%Z = Some (Scalar_of_int 7, [9]%Z)
  /\ exists skipped r,
       [0; SIZE; 7; 9]%Z = skipped ++ r :: [9]%Z
       /\ Forall (fun z => (z mod SIZE = 0)%Z) skipped.
Proof.
  assert (H : _random_scalar_nonzero [0; SIZE; 7; 9]%Z
              = Some (Scalar_of_int 7, [9]%Z)) by (vm_compute; reflexivity).
  split; [exact H|].
  destruct (proj1 (random_scalar_nonzero_spec [0; SIZE; 7; 9]%Z) _ _ H)
    as (skipped & r & E & F & _).
  exists skipped, r. split; [exact E|exact F].
Defined.

Lemma keygen_tape_use_witness :
  (0 mod SIZE = 0)%Z
  /\ @trusted_dealer_key_generation lib 2 3 [0; 4; 5]%Z
     = @trusted_dealer_key_generation lib 2 3 [4; 5]%Z
  /\ @trusted_dealer_key_generation lib 2 3 ([4; 5] ++ [6])%Z
     = Some (Ok (run_commitment, run_secret_shares, run_public_shares)).
Proof.
  assert (H : (0 mod SIZE = 0)%Z) by reflexivity.
  split; [exact H|]. split.
  - exact (proj1 (@keygen_tape_use lib 2 3) 0%Z [4; 5]%Z H).
  - exact (proj2 (@keygen_tape_use lib 2 3) [4; 5]%Z [6]%Z _
             ConcreteRuns.concrete_run).
Defined.

Lemma modinv_scalar_round_trip_witness :
  modinv_scalar (Scalar_of_int 2) = Ok (Scalar_of_int ((SIZE + 1) / 2))
  /\ modinv_scalar (Scalar_of_int ((SIZE + 1) / 2)) = Ok (Scalar_of_int 2).
Proof.
  assert (H : modinv_scalar (Scalar_of_int 2)
              = Ok (Scalar_of_int ((SIZE + 1) / 2)))
    by (vm_compute; reflexivity).
  split; [exact H|].
  exact (proj2 (proj2 (modinv_scalar_round_trip _ _ H))).
Defined.

Lemma keygen_commitments_witness :
  @trusted_dealer_key_generation lib 2 3 [4; 5]%Z
  = Some (Ok (run_commitment, run_secret_shares, run_public_shares))
  /\ length run_commitment = Z.to_nat 2.
Proof.
  split; [exact ConcreteRuns.concrete_run|].
  exact (proj1 (@keygen_commitments lib 2 3 [4; 5]%Z _ _ _
                  ConcreteRuns.concrete_run)).
Defined.

Lemma keygen_all_or_nothing_witness :
  (1 <= 2 <= 3)%Z /\ (4 mod SIZE <> 0)%Z
  /\ @_taproot_tweak_and_sign lib (GE_mul (from_int_wrapping 4) G)
     = Ok (Scalar_of_int 4, 1%Z)
  /\ tweaked_secret_share (map from_int_wrapping [4; SIZE - 4]%Z)
       (Scalar_of_int 4) 1 2 = 0
  /\ @trusted_dealer_key_generation lib 2 3 [4; SIZE - 4]%Z
     = Some (Raise (ValueError (zero_share_message 2))).
Proof.
  assert (Htn : (1 <= 2 <= 3)%Z) by lia.
  assert (Hr : (4 mod SIZE <> 0)%Z) by discriminate.
  assert (Ht : @_taproot_tweak_and_sign lib (GE_mul (from_int_wrapping 4) G)
               = Ok (Scalar_of_int 4, 1%Z)) by (vm_compute; reflexivity).
  assert (Hz : tweaked_secret_share (map from_int_wrapping [4; SIZE - 4]%Z)
                 (Scalar_of_int 4) 1 2 = 0) by (vm_compute; reflexivity).
  split; [exact Htn|]. split; [exact Hr|]. split; [exact Ht|].
  split; [exact Hz|].
  apply (proj2 (@keygen_all_or_nothing lib 2 3 4 [SIZE - 4]%Z
                  (map from_int_wrapping [4; SIZE - 4]%Z)
                  (Scalar_of_int 4) 1 Htn Hr (le_n 1) eq_refl Ht
                  ltac:(scalar_differs)) 2%Z).
  - lia.
  - exact Hz.
  - intros j Hj. assert (j = 1%Z) as -> by lia. scalar_differs.
Defined.

Lemma lagrange_recovers_constant_term_witness :
  NoDup [1; 2; 3]%Z /\ ~ congruent_ids [1; 2; 3]%Z
  /\ ssum (map (fun i => lagrange_coefficient [1; 2; 3]%Z i
                         * eval_scalar_poly [Scalar_of_int 7; Scalar_of_int 5]
                             (Scalar_of_int i)) [1; 2; 3]%Z)
     = Scalar_of_int 7.
Proof.
  assert (ND : NoDup [1; 2; 3]%Z) by distinct_ids.
  split; [exact ND|]. split; [exact ids_1_2_3_not_congruent|].
  exact (proj2 (lagrange_recovers_constant_term [1; 2; 3]%Z
                  [Scalar_of_int 7; Scalar_of_int 5] ND
                  ids_1_2_3_not_congruent (le_S _ _ (le_n 2)))).
Defined.

Lemma keygen_secret_reconstruction_witness :
  @trusted_dealer_key_generation lib 2 3 [4; 5]%Z
  = Some (Ok (run_commitment, run_secret_shares, run_public_shares))
  /\ (3 < SIZE)%Z
  /\ exists d,
       @group_pubkey_from_commitment lib run_commitment = Ok (GE_mul d G)
       /\ ssum (map (fun i => lagrange_coefficient [3; 1]%Z i
                              * nth (Z.to_nat (i - 1)) run_secret_shares 0)
                    [3; 1]%Z)
          = d.
Proof.
  assert (Hn : (3 < SIZE)%Z) by reflexivity.
  split; [exact ConcreteRuns.concrete_run|]. split; [exact Hn|].
  destruct (@keygen_secret_reconstruction lib 2 3 [4; 5]%Z _ _ _
              ConcreteRuns.concrete_run Hn) as (d & Hd & Hq).
  exists d. split; [exact Hd|]. apply (Hq [3; 1]%Z).
  - distinct_ids.
  - cbn [In]. intros i [<-|[<-|[]]]; split; discriminate.
  - cbn [length]. apply le_n.
Defined.

Lemma group_pub_of_evaluations_witness :
  [1; 2]%Z <> [] /\ NoDup [1; 2]%Z /\ ~ congruent_ids [1; 2]%Z
  /\ @group_pub_from_tweaked_pubshares lib [1; 2]%Z
       (map (fun i => @eval_point_poly lib run_commitment (Scalar_of_int i))
            [1; 2]%Z)
     = Ok (Scalar_of_int 4).
Proof.
  assert (Hne : [1; 2]%Z <> []) by discriminate.
  assert (ND : NoDup [1; 2]%Z) by distinct_ids.
  assert (HC : ~ congruent_ids [1; 2]%Z).
  { apply bounded_ids_not_congruent. cbn [In].
    intros i [<-|[<-|[]]]; split; reflexivity || discriminate. }
  split; [exact Hne|]. split; [exact ND|]. split; [exact HC|].
  rewrite (@group_pub_of_evaluations lib [1; 2]%Z run_commitment Hne ND HC
             (le_n 2)).
  vm_compute. reflexivity.
Defined.

Lemma verify_share_accepts_one_share_witness :
  (forall a, @GE_mul lib a (@G lib) = @GE_infinity lib -> a = 0)
  /\ @verify_share lib 1 (Scalar_of_int 13) run_commitment = Ok true
  /\ @verify_share lib 1 (Scalar_of_int 14) run_commitment = Ok false.
Proof.
  assert (H : @verify_share lib 1 (Scalar_of_int 13) run_commitment = Ok true)
    by (vm_compute; reflexivity).
  split; [exact dlog_generator_order|]. split; [exact H|].
  rewrite (@verify_share_accepts_one_share lib 1 (Scalar_of_int 13)
             (Scalar_of_int 14) run_commitment dlog_generator_order H).
  vm_compute. reflexivity.
Defined.

Lemma verify_share_id_modulo_order_witness :
  (0 < 1)%Z /\ (0 < SIZE + 1)%Z /\ (1 mod SIZE = (SIZE + 1) mod SIZE)%Z
  /\ @verify_share lib (SIZE + 1) (Scalar_of_int 13) run_commitment = Ok true.
Proof.
  assert (H1 : (0 < 1)%Z) by reflexivity.
  assert (H2 : (0 < SIZE + 1)%Z) by reflexivity.
  assert (H3 : (1 mod SIZE = (SIZE + 1) mod SIZE)%Z) by reflexivity.
  split; [exact H1|]. split; [exact H2|]. split; [exact H3|].
  rewrite <- (@verify_share_id_modulo_order lib 1 (SIZE + 1)
                (Scalar_of_int 13) run_commitment H1 H2 H3).
  vm_compute. reflexivity.
Defined.

Lemma keygen_verify_is_public_share_check_witness :
  @trusted_dealer_key_generation lib 2 3 [4; 5]%Z
  = Some (Ok (run_commitment, run_secret_shares, run_public_shares))
  /\ (1 <= 2 <= 3)%Z
  /\ @verify_share lib 2 (Scalar_of_int 19) run_commitment = Ok false.
Proof.
  assert (Hi : (1 <= 2 <= 3)%Z) by lia.
  split; [exact ConcreteRuns.concrete_run|]. split; [exact Hi|].
  rewrite (@keygen_verify_is_public_share_check lib 2 3 [4; 5]%Z _ _ _ 2
             (Scalar_of_int 19) ConcreteRuns.concrete_run Hi).
  vm_compute. reflexivity.
Defined.

Lemma group_pub_order_independent_witness :
  Permutation (combine [1; 3]%Z [Scalar_of_int 13; Scalar_of_int 23])
              (combine [3; 1]%Z [Scalar_of_int 23; Scalar_of_int 13])
  /\ @group_pub_from_tweaked_pubshares lib [1; 3]%Z
       [Scalar_of_int 13; Scalar_of_int 23]
     = @group_pub_from_tweaked_pubshares lib [3; 1]%Z
         [Scalar_of_int 23; Scalar_of_int 13].
Proof.
  assert (HP : Permutation
                 (combine [1; 3]%Z [Scalar_of_int 13; Scalar_of_int 23])
                 (combine [3; 1]%Z [Scalar_of_int 23; Scalar_of_int 13]))
    by apply perm_swap.
  split; [exact HP|].
  exact (@group_pub_order_independent lib [1; 3]%Z [3; 1]%Z
           [Scalar_of_int 13; Scalar_of_int 23]
           [Scalar_of_int 23; Scalar_of_int 13] eq_refl eq_refl HP).
Defined.

Lemma lagrange_at_zero_with_zero_id_witness :
  NoDup [0; 1; 2]%Z /\ ~ congruent_ids [0; 1; 2]%Z /\ (0 mod SIZE = 0)%Z
  /\ lagrange_at_zero [0; 1; 2]%Z 0 = Ok 1
  /\ lagrange_at_zero [0; 1; 2]%Z 2 = Ok 0.
Proof.
  assert (ND : NoDup [0; 1; 2]%Z) by distinct_ids.
  assert (HC : ~ congruent_ids [0; 1; 2]%Z).
  { apply bounded_ids_not_congruent. cbn [In].
    intros i [<-|[<-|[<-|[]]]]; split; reflexivity || discriminate. }
  assert (Hm : (0 mod SIZE = 0)%Z) by reflexivity.
  split; [exact ND|]. split; [exact HC|]. split; [exact Hm|].
  destruct (lagrange_at_zero_with_zero_id [0; 1; 2]%Z 0 ND HC
              (or_introl eq_refl) Hm) as [H0 Hi].
  split; [exact H0|]. apply Hi; [right; right; left; reflexivity|discriminate].
Defined.

Lemma keygen_fewer_participants_witness :
  @trusted_dealer_key_generation lib 2 3 [4; 5]%Z
  = Some (Ok (run_commitment, run_secret_shares, run_public_shares))
  /\ (2 <= 2 <= 3)%Z
  /\ @trusted_dealer_key_generation lib 2 2 [4; 5]%Z
     = Some (Ok (run_commitment, map Scalar_of_int [13; 18]%Z,
                 map Scalar_of_int [13; 18]%Z)).
Proof.
  assert (Hn : (2 <= 2 <= 3)%Z) by lia.
  split; [exact ConcreteRuns.concrete_run|]. split; [exact Hn|].
  exact (@keygen_fewer_participants lib 2 3 2 [4; 5]%Z _ _ _
           ConcreteRuns.concrete_run Hn).
Defined.

Lemma keygen_commitment_check_never_fires_witness :
  (forall a, @GE_mul lib a (@G lib) = @GE_infinity lib -> a = 0)
  /\ @trusted_dealer_key_generation lib 2 3 [4; 5]%Z
     <> Some (Raise (ValueError "Invalid polynomial: A_0 is infinity")).
Proof.
  split; [exact dlog_generator_order|].
  exact (@keygen_commitment_check_never_fires lib 2 3 [4; 5]%Z
           dlog_generator_order).
Defined.

End ExtraRuns.
